(** * Exact Gaussian-process regression: the [gp-inference] notebook

    A shallow embedding of the numerical core of
    [src/notebooks/gp-inference.ipynb]: the pairwise-distance routine
    [cdist], the squared-exponential kernel [rbf_kernel], the posterior
    computation [gp_inference] (Cholesky factorisation and triangular
    solves), the Dirichlet label transform and the gradient-descent
    training loop.

    Number model.  PyTorch tensors of floats are modelled as lists of real
    numbers ([R] of the Standard Library): a 1-D tensor is a [list R], a
    2-D tensor the list of its rows.  Arithmetic is exact; rounding,
    overflow, underflow, infinities and NaN are outside the model.  The
    theorems therefore say which expression the code evaluates, which
    library calls it makes on which arguments and in which order, and which
    exception leaves it; the program's value is the binary32 evaluation of
    the same expression.  Facts that are true of the real-number expression
    only (an entry that cancels to exactly 0, a kernel that is exactly
    symmetric, a singular matrix whose pivot is exactly 0) appear as
    auxiliary lemmas about the model where a proof needs them, and are not
    statements about the running program.

    Library model.  [torch.cholesky], [torch.trtrs], [torch.matmul],
    [torch.eye] and broadcasting belong to PyTorch, not to the notebook.
    They are modelled by their documented meaning: LAPACK [potrf] reads the
    lower triangle and stops at the first pivot that is not positive,
    [trtrs] rejects a triangular matrix with a zero on its diagonal and
    otherwise substitutes.  Every call of the two LAPACK-backed routines is
    recorded in a trace, so that statements about which solves are performed,
    and in which order, can be made. *)

From Stdlib Require Import String.
From Stdlib Require Import Reals List Lra Lia Psatz Bool Arith.
Import ListNotations.
Open Scope R_scope.

(** ** Tensors as lists *)

Definition vector := list R.
Definition matrix := list (list R).

(** [A[i, j]], with [0] standing for an index out of range. *)
Definition entry (A : matrix) (i j : nat) : R := nth j (nth i A []) 0.

(** Pointwise combination of two lists, stopping at the shorter one. *)
Fixpoint zip_with {A B C : Type} (f : A -> B -> C) (l1 : list A) (l2 : list B)
  : list C :=
  match l1, l2 with
  | a :: l1', b :: l2' => f a b :: zip_with f l1' l2'
  | _, _ => []
  end.

(** [torch.sum] over a 1-D tensor. *)
Definition Rsum (l : list R) : R := fold_right Rplus 0 l.

(** Inner product of two coordinate lists. *)
Definition dot (p q : list R) : R := Rsum (zip_with Rmult p q).

(** [x.pow(2).sum(dim=-1)] for one row. *)
Definition sq_norm (p : list R) : R := Rsum (map (fun a => a ^ 2) p).

(** ** Pairwise distances *)

(** The floor of [clamp_min_(1e-30)]. *)
Definition clamp_floor : R := 1e-30.

(** One entry of [cdist]: [addmm(x2_norm^T, x1, x2^T, alpha=-2)] gives
    [x2_norm[j] + (-2) * (x1[i] . x2[j])], [add_(x1_norm)] adds [x1_norm[i]],
    then the clamp and the square root.  Over the reals the clamped
    expression is the squared Euclidean distance; in binary32 the three
    terms are rounded one by one, so the program's value can differ from it
    by cancellation, and is NaN once a square overflows. *)
Definition cdist_entry (p q : list R) : R :=
  sqrt (Rmax (sq_norm q + (-2) * dot p q + sq_norm p) clamp_floor).

(** [cdist(x1, x2)] for [x1] of shape N x D and [x2] of shape M x D, each
    given as the list of its points.  PyTorch raises when the two point sets
    disagree on D; this is not modelled, since every call in the notebook
    goes through [rbf_kernel], which passes D = 1 on both sides. *)
Definition cdist (x1 x2 : list (list R)) : matrix :=
  map (fun p => map (fun q => cdist_entry p q) x2) x1.

(** ** The RBF kernel *)

(** [x[..., None]]: a 1-D tensor of N scalars becomes N points of dimension 1. *)
Definition unsqueeze (x : list R) : list (list R) := map (fun a => [a]) x.

(** The elementwise map applied to the distance matrix:
    [variance * exp(-d**2 / (2 * lengthscale**2))].  At lengthscale 0 the
    program divides by zero and gets [variance * exp(-inf)]; the real-number
    expression below has no such value there. *)
Definition rbf_of_dist (lengthscale variance d : R) : R :=
  variance * exp (- d ^ 2 / (2 * lengthscale ^ 2)).

Definition rbf_kernel (x1 x2 : list R) (lengthscale variance : R) : matrix :=
  map (map (rbf_of_dist lengthscale variance))
      (cdist (unsqueeze x1) (unsqueeze x2)).

(** The distance the routine computes between two scalar inputs. *)
Definition dist (a b : R) : R := cdist_entry [a] [b].

(** ** Exceptions and the trace of library calls *)

(** What a LAPACK-backed PyTorch routine reports when it gives up. *)
Inductive failure : Type :=
| NotPositiveDefinite (order : nat)   (* potrf: leading minor of this order *)
| SingularTriangular (index : nat)    (* trtrs: zero at this diagonal place *)
| SizeMismatch.                       (* operand shapes do not fit *)

(** PyTorch raises all of them as Python's [RuntimeError]; the notebook
    defines no exception class of its own and has no [raise] in the code
    modelled here. *)
Inductive exn : Type :=
| RuntimeError (f : failure).

Definition exn_class (e : exn) : string :=
  match e with
  | RuntimeError _ => "RuntimeError"
  end.

(** A recorded library call, with its arguments. *)
Inductive call : Type :=
| Cholesky (A : matrix)
| Trtrs (b A : matrix) (upper : bool).

(** Computations that record library calls and may raise. *)
Definition M (X : Type) : Type := (list call * (exn + X))%type.

Definition ret {X : Type} (x : X) : M X := ([], inr x).

Definition raise {X : Type} (e : exn) : M X := ([], inl e).

Definition bind {X Y : Type} (m : M X) (f : X -> M Y) : M Y :=
  match m with
  | (t1, inl e) => (t1, inl e)
  | (t1, inr x) => let (t2, r) := f x in (t1 ++ t2, r)
  end.

Definition record {X : Type} (c : call) (r : exn + X) : M X := ([c], r).

Definition lift {X : Type} (r : exn + X) : M X := ([], r).

Definition trace_of {X : Type} (m : M X) : list call := fst m.
Definition outcome {X : Type} (m : M X) : exn + X := snd m.

Declare Scope gp_scope.
Notation "x <- m ;; k" := (bind m (fun x => k))
  (at level 61, m at next level, right associativity) : gp_scope.
Open Scope gp_scope.

(** ** Dense linear algebra *)

(** [torch.eye(n)]. *)
Definition eye (n : nat) : matrix :=
  map (fun i => map (fun j => if Nat.eqb i j then 1 else 0) (seq 0 n)) (seq 0 n).

(** [torch.diag(A)] of a square matrix. *)
Definition diag (A : matrix) : list R :=
  map (fun i => entry A i i) (seq 0 (length A)).

(** [A.t()] for [A] with [m] columns.  The list of rows of a matrix without
    rows does not tell its number of columns, so it is passed. *)
Fixpoint transpose (m : nat) (A : matrix) : matrix :=
  match A with
  | [] => repeat [] m
  | r :: A' => zip_with cons r (transpose m A')
  end.

(** The combination [sum_j r[j] * B[j, :]] of the rows of [B], of width [m]. *)
Fixpoint row_comb (m : nat) (r : list R) (B : matrix) : list R :=
  match r, B with
  | a :: r', b :: B' => zip_with Rplus (map (Rmult a) b) (row_comb m r' B')
  | _, _ => repeat 0 m
  end.

(** [torch.matmul(A, B)] for [B] with [m] columns. *)
Definition matmul (m : nat) (A B : matrix) : matrix :=
  map (fun r => row_comb m r B) A.

(** Elementwise difference of two matrices of one shape. *)
Definition mat_sub (A B : matrix) : matrix := zip_with (zip_with Rminus) A B.

(** [A @ x] for a vector [x]. *)
Definition mat_vec (A : matrix) (x : list R) : list R :=
  map (fun r => dot r x) A.

(** A 1-D right-hand side is taken as one column. *)
Definition column (t : list R) : matrix := map (fun a => [a]) t.

Definition is_square (A : matrix) : bool :=
  forallb (fun r => Nat.eqb (length r) (length A)) A.

(** *** Cholesky factorisation *)

(** The trailing block after one elimination step: [A'[i,j] - c[i] * c[j]]. *)
Definition schur (c : list R) (A' : matrix) : matrix :=
  zip_with (fun ci r => zip_with (fun cj x => x - ci * cj) c r) c A'.

(** LAPACK [potrf], lower variant, on a matrix of order [n]; [k] is the
    order of the leading minor whose pivot is being tested.  Only entries on
    and below the diagonal are read.  The pivot must be positive; the
    pivots here are those of exact arithmetic, from which the rounded pivots
    of the running program can differ in sign when they are close to 0. *)
Fixpoint potrf (n k : nat) (A : matrix) : exn + matrix :=
  match n, A with
  | S n', (a :: _) :: below =>
      if Rlt_dec 0 a then
        let d := sqrt a in
        let c := map (fun r => hd 0 r / d) below in
        match potrf n' (S k) (schur c (map (@tl R) below)) with
        | inr L' => inr ((d :: repeat 0 n') :: zip_with cons c L')
        | inl e => inl e
        end
      else inl (RuntimeError (NotPositiveDefinite k))
  | _, _ => inr []
  end.

(** [torch.cholesky(A)] (lower factor). *)
Definition torch_cholesky (A : matrix) : M matrix :=
  record (Cholesky A)
    (if is_square A then potrf (length A) 1 A
     else inl (RuntimeError SizeMismatch)).

(** *** Triangular solves *)

(** Forward substitution with a lower-triangular [A] of order [n] and a
    right-hand side given by rows. *)
Fixpoint solve_lower (n : nat) (A B : matrix) : matrix :=
  match n, A, B with
  | S n', (d :: _) :: below, b :: B' =>
      let z := map (fun x => x / d) b in
      z :: solve_lower n' (map (@tl R) below)
             (zip_with (fun r bi => zip_with (fun bij zj => bij - hd 0 r * zj) bi z)
                       below B')
  | _, _, _ => []
  end.

(** Backward substitution with an upper-triangular [U] of order [n]. *)
Fixpoint solve_upper (n : nat) (U B : matrix) : matrix :=
  match n, U, B with
  | S n', (d :: r) :: below, b :: B' =>
      let X' := solve_upper n' (map (@tl R) below) B' in
      map (fun x => x / d) (zip_with Rminus b (row_comb (length b) r X')) :: X'
  | _, _, _ => []
  end.

(** The first place, counted from [k], at which a list holds [0]. *)
Fixpoint first_zero (k : nat) (l : list R) : option nat :=
  match l with
  | [] => None
  | d :: l' => if Req_dec_T d 0 then Some k else first_zero (S k) l'
  end.

(** [torch.trtrs(b, A, upper)[0]]: shapes are checked, then LAPACK [trtrs]
    looks for a zero on the diagonal before it substitutes. *)
Definition torch_trtrs (b A : matrix) (upper : bool) : M matrix :=
  record (Trtrs b A upper)
    (if negb (is_square A) || negb (Nat.eqb (length b) (length A))
     then inl (RuntimeError SizeMismatch)
     else match first_zero 1 (diag A) with
          | Some i => inl (RuntimeError (SingularTriangular i))
          | None => inr (if upper then solve_upper (length A) A b
                         else solve_lower (length A) A b)
          end).

(** ** Observation noise *)

(** [params[2]]: a number (or 0-dim tensor), or a 1-D tensor. *)
Inductive noise_spec : Type :=
| NoiseScalar (s : R)
| NoiseVector (v : list R).

(** [noise * torch.eye(N)].  A 1-D [noise] is broadcast along the last
    dimension: entry (i,j) is [noise[j] * eye[i,j]].  Broadcasting also
    accepts a vector of length 1 and, for N = 1, a vector of any length
    (the result is then 1 x len). *)
Definition noise_times_eye (noise : noise_spec) (N : nat) : exn + matrix :=
  match noise with
  | NoiseScalar s => inr (map (map (Rmult s)) (eye N))
  | NoiseVector v =>
      if Nat.eqb (length v) N then inr (map (zip_with Rmult v) (eye N))
      else if Nat.eqb (length v) 1 then inr (map (map (Rmult (hd 0 v))) (eye N))
      else if Nat.eqb N 1 then inr [map (fun s => s * 1) v]
      else inl (RuntimeError SizeMismatch)
  end.

(** [K + E] for [K] square of order N and [E] as [noise_times_eye] returns
    it: of the same shape, or 1 x len against a 1 x 1 [K], which is then
    broadcast. *)
Definition tensor_add (K E : matrix) : matrix :=
  match K with
  | [[k]] => map (map (Rplus k)) E
  | _ => zip_with (zip_with Rplus) K E
  end.

(** ** Posterior inference *)

(** The noisy training covariance [K_y] of [gp_inference]. *)
Definition noisy_cov (obs_x : list R) (lengthscale variance : R)
  (noise : noise_spec) : exn + matrix :=
  match noise_times_eye noise (length obs_x) with
  | inr E => inr (tensor_add (rbf_kernel obs_x obs_x lengthscale variance) E)
  | inl e => inl e
  end.

(** The log marginal likelihood expression of the notebook, from the
    Cholesky factor, the forward-solve result and [N]. *)
Definition log_lik_expr (K_chol z : matrix) (N : nat) : R :=
  - (5 / 10) * (Rsum (map (fun d => ln (Rabs d)) (diag K_chol))
                + Rsum (map (fun x => x ^ 2) (concat z)))
  - INR N / 2 * ln (2 * PI).

Definition gp_inference (obs_x obs_t x_new : list R)
  (params : R * R * noise_spec) (prior_mean : R)
  : M (list R * matrix * R) :=
  let '(lengthscale, variance, noise) := params in
  let obs_t := map (fun t => t - prior_mean) obs_t in
  let N := length obs_x in
  K_y <- lift (noisy_cov obs_x lengthscale variance noise) ;;
  K_chol <- torch_cholesky K_y ;;
  z <- torch_trtrs (column obs_t) K_chol false ;;
  alpha <- torch_trtrs z (transpose N K_chol) true ;;
  let K_obs_pred := rbf_kernel obs_x x_new lengthscale variance in
  let K_pred := rbf_kernel x_new x_new lengthscale variance in
  let posterior_m := matmul 1 (transpose (length x_new) K_obs_pred) alpha in
  v' <- torch_trtrs K_obs_pred K_chol false ;;
  v <- torch_trtrs v' (transpose N K_chol) true ;;
  let posterior_v :=
    mat_sub K_pred
            (matmul (length x_new) (transpose (length x_new) K_obs_pred) v) in
  z2 <- torch_trtrs (column obs_t) K_chol false ;;
  let log_lik := log_lik_expr K_chol z2 N in
  ret (map (fun r => hd 0 r + prior_mean) posterior_m, posterior_v, log_lik).

(** ** The Dirichlet label transform (bonus section of the notebook) *)

(** [alpha = 0.05]. *)
Definition alpha_default : R := 5 / 100.

(** [obs_t_transf_var = torch.log((obs_t + alpha) ** (-1) + 1)]. *)
Definition transf_var (alpha : R) (Y : matrix) : matrix :=
  map (map (fun y => ln (/ (y + alpha) + 1))) Y.

(** [obs_t_transf_mean = torch.log(obs_t + alpha) - (obs_t_transf_var) / 2]. *)
Definition transf_mean (alpha : R) (Y : matrix) : matrix :=
  zip_with (zip_with Rminus)
           (map (map (fun y => ln (y + alpha))) Y)
           (map (map (fun s => s / 2)) (transf_var alpha Y)).

(** The slice [A[:, c]]; Python raises [IndexError] for a column that does
    not exist, the labels of the notebook have the two columns it reads. *)
Definition col (c : nat) (A : matrix) : list R := map (fun r => nth c r 0) A.

(** The call the notebook makes for class [c]:
    [gp_inference(obs_x, obs_t_transf_mean[:,c], test_x,
                  params + [obs_t_transf_var[:,c]], prior_mean)]. *)
Definition class_inference (obs_x : list R) (Y : matrix) (test_x : list R)
  (alpha lengthscale variance : R) (c : nat) (prior_mean : R)
  : M (list R * matrix * R) :=
  gp_inference obs_x (col c (transf_mean alpha Y)) test_x
               (lengthscale, variance, NoiseVector (col c (transf_var alpha Y)))
               prior_mean.

(** The objective of the second optimisation loop:
    [nlog_lik = - log_lik_0 - log_lik_1], one inference per class. *)
Definition dirichlet_nlog_lik (obs_x : list R) (Y : matrix) (test_x : list R)
  (alpha lengthscale variance : R) : M R :=
  r0 <- class_inference obs_x Y test_x alpha lengthscale variance 0 0 ;;
  r1 <- class_inference obs_x Y test_x alpha lengthscale variance 1 0 ;;
  ret (- snd r0 - snd r1).

(** ** Hyperparameter optimisation (the training loop) *)

(** The unconstrained parameters [logl], [logsigmaf], [logsigman]. *)
Record hyper : Type := mk_hyper { logl : R; logsigmaf : R; logsigman : R }.

Definition hyper_map2 (f : R -> R -> R) (a b : hyper) : hyper :=
  {| logl := f (logl a) (logl b);
     logsigmaf := f (logsigmaf a) (logsigmaf b);
     logsigman := f (logsigman a) (logsigman b) |}.

(** [lr=0.01, momentum=0.95, nesterov=True]. *)
Definition sgd_lr : R := 1 / 100.
Definition sgd_momentum : R := 95 / 100.

(** One [optimizer.step()] of [torch.optim.SGD] with momentum and Nesterov
    look-ahead (no dampening, no weight decay): the buffer starts as the
    first gradient, then [buf = momentum * buf + g]; the direction is
    [g + momentum * buf] and the parameter moves by [-lr] times it. *)
Definition sgd_step (p g : hyper) (buf : option hyper) : hyper * hyper :=
  let buf' := match buf with
              | None => g
              | Some b => hyper_map2 (fun bi gi => sgd_momentum * bi + gi) b g
              end in
  let d_p := hyper_map2 (fun gi bi => gi + sgd_momentum * bi) g buf' in
  (hyper_map2 (fun pi di => pi + - sgd_lr * di) p d_p, buf').

(** What the loop carries from one iteration to the next. *)
Record loop_state : Type := mk_loop_state {
  ls_params : hyper;
  ls_buffer : option hyper;
  nlog_lik_steps : list R
}.

(** [params = [logl.exp(), logsigmaf.exp(), logsigman.exp()]]. *)
Definition constrained (p : hyper) : R * R * noise_spec :=
  (exp (logl p), exp (logsigmaf p), NoiseScalar (exp (logsigman p))).

(** The single test point [np.linspace(-30, 85, 1)]. *)
Definition scan_point : list R := [-30].

Section TrainingLoop.

(** The fixed training set. *)
Variables obs_x obs_t : list R.

(** [nlog_lik.backward()]: the gradient of the negative log-likelihood
    with respect to the unconstrained parameters, as autograd returns it. *)
Variable backward : hyper -> hyper.

(** [nlog_lik = -log_lik] at the current parameters. *)
Definition nlog_lik_at (p : hyper) : exn + R :=
  match outcome (gp_inference obs_x obs_t scan_point (constrained p) 0) with
  | inr (_, _, log_lik) => inr (- log_lik)
  | inl e => inl e
  end.

(** The optimiser state after one step, whatever the likelihood was. *)
Definition advance (ph : hyper * option hyper) : hyper * option hyper :=
  let (p', b') := sgd_step (fst ph) (backward (fst ph)) (snd ph) in
  (p', Some b').

(** The body of [for i in range(...)]. *)
Definition training_step (st : loop_state) : exn + loop_state :=
  match nlog_lik_at (ls_params st) with
  | inl e => inl e
  | inr nlog_lik =>
      let (p', b') := advance (ls_params st, ls_buffer st) in
      inr {| ls_params := p'; ls_buffer := b';
             nlog_lik_steps := nlog_lik_steps st ++ [nlog_lik] |}
  end.

(** [for i in range(steps)]. *)
Fixpoint training_loop (steps : nat) (st : loop_state) : exn + loop_state :=
  match steps with
  | O => inr st
  | S k => match training_step st with
           | inl e => inl e
           | inr st' => training_loop k st'
           end
  end.

(** The optimiser state at the start of iteration [i]. *)
Fixpoint optimizer_at (i : nat) (ph : hyper * option hyper)
  : hyper * option hyper :=
  match i with
  | O => ph
  | S k => optimizer_at k (advance ph)
  end.

End TrainingLoop.

(** The state before the first iteration: [logl = 2], [logsigmaf = -2],
    [logsigman = -2], no momentum buffer, [nlog_lik_steps = []]. *)
Definition initial_state : loop_state :=
  {| ls_params := {| logl := 2; logsigmaf := -2; logsigman := -2 |};
     ls_buffer := None;
     nlog_lik_steps := [] |}.

(** ** Predicates on matrices *)

Definition square (n : nat) (A : matrix) : Prop :=
  length A = n /\ Forall (fun r => length r = n) A.

Definition symmetric (A : matrix) : Prop :=
  forall i j : nat, entry A i j = entry A j i.

(** The quadratic form [x^T A x]. *)
Definition quad (A : matrix) (x : list R) : R := dot x (mat_vec A x).

Definition pos_def (A : matrix) : Prop :=
  forall x : list R,
    length x = length A -> Exists (fun a => a <> 0) x -> 0 < quad A x.

(** Symmetric positive-definite. *)
Definition SPD (A : matrix) : Prop :=
  square (length A) A /\ symmetric A /\ pos_def A.

(** A lower-triangular matrix of order [n] with a positive diagonal, in the
    shape [potrf] builds it: first row, then first column and the rest. *)
Inductive chol_factor : nat -> matrix -> Prop :=
| chol_factor_nil : chol_factor 0 []
| chol_factor_cons (n : nat) (d : R) (c : list R) (L' : matrix) :
    0 < d -> length c = n -> chol_factor n L' ->
    chol_factor (S n) ((d :: repeat 0 n) :: zip_with cons c L').

(** A noise argument that fits [N] observations: a number, or one value
    per observation. *)
Definition noise_fits (N : nat) (noise : noise_spec) : Prop :=
  match noise with
  | NoiseScalar _ => True
  | NoiseVector v => length v = N
  end.

(** The diagonal matrix [diag(noise)] of order [N]. *)
Definition noise_at (noise : noise_spec) (i : nat) : R :=
  match noise with
  | NoiseScalar s => s
  | NoiseVector v => nth i v 0
  end.

(** ** Counting library calls *)

Definition call_eq_dec (c1 c2 : call) : {c1 = c2} + {c1 <> c2}.
Proof.
  decide equality; try apply bool_dec;
    apply (list_eq_dec (list_eq_dec Req_dec_T)).
Defined.

(** How often a call, with these very arguments, occurs in a trace. *)
Definition times_called (c : call) (tr : list call) : nat :=
  count_occ call_eq_dec tr c.

(** ** Comparing runs *)

(** The likelihood part of a run: the value, or the exception. *)
Definition log_lik_of (run : M (list R * matrix * R)) : exn + R :=
  match outcome run with
  | inr (_, _, log_lik) => inr log_lik
  | inl e => inl e
  end.

(** * Properties *)

(** ** Lists and entries *)

Lemma zip_with_length {A B C : Type} (f : A -> B -> C) (l1 : list A) (l2 : list B) :
  length (zip_with f l1 l2) = Nat.min (length l1) (length l2).
Proof.
  revert l2; induction l1 as [|a l1 IH]; intros [|b l2]; simpl; auto.
Qed.

Lemma nth_zip_with {A B C : Type} (f : A -> B -> C) (l1 : list A) (l2 : list B)
  (i : nat) (da : A) (db : B) (dc : C) :
  (i < length l1)%nat -> (i < length l2)%nat ->
  nth i (zip_with f l1 l2) dc = f (nth i l1 da) (nth i l2 db).
Proof.
  revert l2 i; induction l1 as [|a l1 IH]; intros [|b l2] [|i]; simpl; intros;
    try lia; auto.
  apply IH; lia.
Qed.

Lemma nth_map_in {A B : Type} (f : A -> B) (l : list A) (i : nat) (da : A) (db : B) :
  (i < length l)%nat -> nth i (map f l) db = f (nth i l da).
Proof.
  revert i; induction l as [|a l IH]; intros [|i]; simpl; intros; try lia; auto.
  apply IH; lia.
Qed.

Lemma entry_map_map (f : R -> R) (A : matrix) (i j : nat) :
  (i < length A)%nat -> (j < length (nth i A []))%nat ->
  entry (map (map f) A) i j = f (entry A i j).
Proof.
  intros Hi Hj. unfold entry.
  rewrite (nth_map_in (map f) A i [] []) by exact Hi.
  apply nth_map_in; exact Hj.
Qed.

(** ** The distance matrix *)

Lemma cdist_length (x1 x2 : list (list R)) : length (cdist x1 x2) = length x1.
Proof. unfold cdist. apply length_map. Qed.

Lemma cdist_row (x1 x2 : list (list R)) (i : nat) :
  (i < length x1)%nat ->
  nth i (cdist x1 x2) [] = map (fun q => cdist_entry (nth i x1 []) q) x2.
Proof.
  intros Hi. unfold cdist.
  apply (nth_map_in (fun p => map (fun q => cdist_entry p q) x2) x1 i [] []); exact Hi.
Qed.

Lemma cdist_entry_at (x1 x2 : list (list R)) (i j : nat) :
  (i < length x1)%nat -> (j < length x2)%nat ->
  entry (cdist x1 x2) i j = cdist_entry (nth i x1 []) (nth j x2 []).
Proof.
  intros Hi Hj. unfold entry. rewrite cdist_row by exact Hi.
  apply (nth_map_in (fun q => cdist_entry (nth i x1 []) q) x2 j [] 0); exact Hj.
Qed.

Lemma clamp_floor_pos : 0 < clamp_floor.
Proof. unfold clamp_floor. lra. Qed.

Lemma cdist_entry_sq (p q : list R) :
  cdist_entry p q ^ 2 = Rmax (sq_norm q + (-2) * dot p q + sq_norm p) clamp_floor.
Proof.
  unfold cdist_entry. simpl. rewrite Rmult_1_r. apply sqrt_sqrt.
  eapply Rle_trans; [|apply Rmax_r]. pose proof clamp_floor_pos; lra.
Qed.

Lemma dist_sq (a b : R) : dist a b ^ 2 = Rmax ((a - b) ^ 2) clamp_floor.
Proof.
  unfold dist. rewrite cdist_entry_sq. f_equal.
  unfold sq_norm, dot, Rsum. simpl. ring.
Qed.

Lemma dist_sym (a b : R) : dist a b = dist b a.
Proof.
  unfold dist, cdist_entry. f_equal. f_equal.
  unfold sq_norm, dot, Rsum. simpl. ring.
Qed.

(** ** The kernel matrix *)

Lemma unsqueeze_length (x : list R) : length (unsqueeze x) = length x.
Proof. apply length_map. Qed.

Lemma unsqueeze_nth (x : list R) (i : nat) :
  (i < length x)%nat -> nth i (unsqueeze x) [] = [nth i x 0].
Proof. intros Hi. unfold unsqueeze. apply (nth_map_in (fun a => [a]) x i 0 []); exact Hi. Qed.

Lemma rbf_kernel_length (x1 x2 : list R) (l v : R) :
  length (rbf_kernel x1 x2 l v) = length x1.
Proof. unfold rbf_kernel. rewrite length_map, cdist_length. apply unsqueeze_length. Qed.

Lemma rbf_kernel_rows (x1 x2 : list R) (l v : R) :
  Forall (fun r => length r = length x2) (rbf_kernel x1 x2 l v).
Proof.
  unfold rbf_kernel, cdist. rewrite map_map. apply Forall_map, Forall_forall.
  intros p _. rewrite !length_map. apply unsqueeze_length.
Qed.

Lemma rbf_kernel_entry (x1 x2 : list R) (l v : R) (i j : nat) :
  (i < length x1)%nat -> (j < length x2)%nat ->
  entry (rbf_kernel x1 x2 l v) i j
  = rbf_of_dist l v (dist (nth i x1 0) (nth j x2 0)).
Proof.
  intros Hi Hj. unfold rbf_kernel.
  rewrite entry_map_map.
  - rewrite cdist_entry_at by (rewrite unsqueeze_length; assumption).
    rewrite !unsqueeze_nth by assumption. reflexivity.
  - rewrite cdist_length, unsqueeze_length. exact Hi.
  - rewrite cdist_row by (rewrite unsqueeze_length; exact Hi).
    rewrite length_map, unsqueeze_length. exact Hj.
Qed.

Lemma entry_out_of_rows (A : matrix) (i j : nat) :
  (length A <= i)%nat -> entry A i j = 0.
Proof.
  intros Hi. unfold entry. rewrite (nth_overflow A) by exact Hi. destruct j; reflexivity.
Qed.

Lemma entry_out_of_cols (A : matrix) (n i j : nat) :
  Forall (fun r => length r = n) A -> (n <= j)%nat -> entry A i j = 0.
Proof.
  intros HA Hj. unfold entry.
  destruct (Nat.lt_ge_cases i (length A)) as [Hi|Hi].
  - apply nth_overflow. rewrite Forall_forall in HA.
    rewrite (HA (nth i A [])); [exact Hj | apply nth_In; exact Hi].
  - rewrite (nth_overflow A) by exact Hi. destruct j; reflexivity.
Qed.



Lemma rbf_kernel_diag (x : list R) (l v : R) (i : nat) :
  (i < length x)%nat ->
  entry (rbf_kernel x x l v) i i = v * exp (- clamp_floor / (2 * l ^ 2)).
Proof.
  intros Hi. rewrite rbf_kernel_entry by assumption. unfold rbf_of_dist.
  rewrite dist_sq. replace ((nth i x 0 - nth i x 0) ^ 2) with 0 by ring.
  rewrite Rmax_right by (pose proof clamp_floor_pos; lra). reflexivity.
Qed.

(** Claim C5, as the code has it.  The diagonal of the training covariance
    is [K[i,i] = variance * exp(-d_i^2 / (2 * l^2))], where
    [d_i = cdist(x, x)[i,i]] is the distance the routine computes between
    the i-th point and itself: the square root of the squared-distance
    expression [x_i^2 + (-2) * (x_i * x_i) + x_i^2] after [clamp_min_] has
    raised it to at least [1e-30].  The exponential is taken of
    [-d_i^2 / (2 * l^2)] with this [d_i], not of 0. *)
Theorem rbf_kernel_diag_expression (x : list R) (lengthscale variance : R) (i : nat) :
  (i < length x)%nat ->
  let d := entry (cdist (unsqueeze x) (unsqueeze x)) i i in
  let x_i := nth i x 0 in
  entry (rbf_kernel x x lengthscale variance) i i
  = variance * exp (- d ^ 2 / (2 * lengthscale ^ 2))
  /\ d = sqrt (Rmax (sq_norm [x_i] + (-2) * dot [x_i] [x_i] + sq_norm [x_i])
                    clamp_floor)
  /\ sq_norm [x_i] = x_i ^ 2 + 0
  /\ dot [x_i] [x_i] = x_i * x_i + 0
  /\ clamp_floor = 1e-30.
Proof.
  intros Hi d x_i.
  assert (Hd : d = dist x_i x_i).
  { unfold d. rewrite cdist_entry_at by (rewrite unsqueeze_length; exact Hi).
    rewrite !unsqueeze_nth by exact Hi. reflexivity. }
  split; [|split; [|repeat split]].
  - rewrite rbf_kernel_entry by exact Hi. fold x_i. rewrite <- Hd. reflexivity.
  - rewrite Hd. reflexivity.
Qed.

Lemma rbf_kernel_diag_expression_witness :
  (1 < length [0; 5; 10])%nat
  /\ entry (rbf_kernel [0; 5; 10] [0; 5; 10] 2 1) 1 1
     = 1 * exp (- entry (cdist (unsqueeze [0; 5; 10]) (unsqueeze [0; 5; 10])) 1 1 ^ 2
                / (2 * 2 ^ 2)).
Proof.
  split; [simpl; lia|].
  exact (proj1 (rbf_kernel_diag_expression [0; 5; 10] 2 1 1 ltac:(simpl; lia))).
Defined.

(** Claim C5 as written fails: with lengthscale [1e-15] and variance [1] the
    diagonal entry for a single point is [exp(-1/2)], not the variance. *)
Lemma rbf_kernel_diag_gap :
  0 < 1e-15 /\ 0 < 1 /\ entry (rbf_kernel [0] [0] 1e-15 1) 0 0 <> 1.
Proof.
  split; [lra | split; [lra|]].
  pose proof (rbf_kernel_diag [0] 1e-15 1 0%nat) as H. simpl in H.
  rewrite H by lia.
  assert (H2 : exp (- clamp_floor / (2 * (1e-15 * (1e-15 * 1)))) < 1).
  { replace (- clamp_floor / (2 * (1e-15 * (1e-15 * 1)))) with (- (1 / 2))
      by (unfold clamp_floor; field).
    pose proof (exp_increasing (- (1 / 2)) 0) as E. rewrite exp_0 in E.
    apply E. lra. }
  lra.
Qed.

(** ** Squares, symmetry and the noisy covariance *)

Lemma square_entry_sym (n : nat) (A : matrix) :
  square n A ->
  (forall i j : nat, (i < n)%nat -> (j < n)%nat -> entry A i j = entry A j i) ->
  symmetric A.
Proof.
  intros [Hlen Hrows] H i j.
  destruct (Nat.lt_ge_cases i n) as [Hi|Hi], (Nat.lt_ge_cases j n) as [Hj|Hj].
  - apply H; assumption.
  - rewrite (entry_out_of_cols A n i j Hrows Hj).
    rewrite entry_out_of_rows by lia. reflexivity.
  - rewrite (entry_out_of_cols A n j i Hrows Hi).
    rewrite entry_out_of_rows by lia. reflexivity.
  - rewrite !entry_out_of_rows by lia. reflexivity.
Qed.

Lemma rbf_kernel_square (x : list R) (l v : R) :
  square (length x) (rbf_kernel x x l v).
Proof. split; [apply rbf_kernel_length | apply rbf_kernel_rows]. Qed.

Lemma eye_square (n : nat) : square n (eye n).
Proof.
  unfold eye. split.
  - rewrite length_map, length_seq. reflexivity.
  - apply Forall_map, Forall_forall. intros i _. rewrite length_map, length_seq. reflexivity.
Qed.

Lemma eye_entry (n i j : nat) :
  (i < n)%nat -> (j < n)%nat ->
  entry (eye n) i j = if Nat.eqb i j then 1 else 0.
Proof.
  intros Hi Hj. unfold entry, eye.
  rewrite (nth_map_in _ (seq 0 n) i 0%nat []) by (rewrite length_seq; exact Hi).
  rewrite (nth_map_in _ (seq 0 n) j 0%nat 0) by (rewrite length_seq; exact Hj).
  rewrite !seq_nth by assumption. reflexivity.
Qed.

Lemma square_row_length (n : nat) (A : matrix) (i : nat) :
  square n A -> (i < n)%nat -> length (nth i A []) = n.
Proof.
  intros [Hlen Hrows] Hi. rewrite Forall_forall in Hrows.
  apply Hrows, nth_In. lia.
Qed.

Lemma noise_times_eye_fits (noise : noise_spec) (N : nat) :
  noise_fits N noise ->
  exists E, noise_times_eye noise N = inr E
    /\ square N E
    /\ forall i j : nat, (i < N)%nat -> (j < N)%nat ->
         entry E i j = noise_at noise j * (if Nat.eqb i j then 1 else 0).
Proof.
  destruct noise as [s|v]; simpl; intros Hfit.
  - eexists; split; [reflexivity|]. pose proof (eye_square N) as [Hl Hr]. split.
    + split; [rewrite length_map; exact Hl|].
      apply Forall_map. eapply Forall_impl; [|exact Hr]. simpl; intros r Hrl.
      rewrite length_map; exact Hrl.
    + intros i j Hi Hj. rewrite entry_map_map.
      * rewrite eye_entry by assumption. reflexivity.
      * lia.
      * rewrite (square_row_length N (eye N) i (eye_square N)) by lia. exact Hj.
  - rewrite Hfit, Nat.eqb_refl.
    eexists; split; [reflexivity|]. pose proof (eye_square N) as [Hl Hr]. split.
    + split; [rewrite length_map; exact Hl|].
      apply Forall_map. eapply Forall_impl; [|exact Hr]. simpl; intros r Hrl.
      rewrite zip_with_length, Hrl, Hfit. apply Nat.min_id.
    + intros i j Hi Hj. unfold entry.
      rewrite (nth_map_in _ (eye N) i [] []) by lia.
      rewrite (nth_zip_with Rmult v (nth i (eye N) []) j 0 0 0);
        [| lia | rewrite (square_row_length N (eye N) i (eye_square N)) by lia; exact Hj].
      fold (entry (eye N) i j). rewrite eye_entry by assumption. reflexivity.
Qed.

Lemma tensor_add_zip (K E : matrix) :
  length K = length E -> 
  Forall (fun r => length r = length K) K ->
  Forall (fun r => length r = length K) E ->
  tensor_add K E = zip_with (zip_with Rplus) K E.
Proof.
  intros HL HK HE. unfold tensor_add.
  destruct K as [|[|k [|k' r]] [|r' K']]; try reflexivity.
  destruct E as [|[|e [|e' re]] [|re' E']]; try reflexivity; simpl in *;
    try discriminate; inversion HE; simpl in *; try discriminate; try lia.
Qed.

Lemma zip_rows_length {A B C : Type} (f : A -> B -> C) (n : nat)
  (K : list (list A)) (E : list (list B)) :
  Forall (fun r => length r = n) K -> Forall (fun r => length r = n) E ->
  Forall (fun r => length r = n) (zip_with (zip_with f) K E).
Proof.
  revert E. induction K as [|r K IH]; intros [|e E] HK HE; simpl; constructor.
  - inversion HK; inversion HE; subst.
    rewrite zip_with_length. replace (length e) with (length r) by congruence.
    apply Nat.min_id.
  - apply IH; [inversion HK | inversion HE]; assumption.
Qed.

Lemma tensor_add_square (n : nat) (K E : matrix) :
  square n K -> square n E -> square n (tensor_add K E).
Proof.
  intros [HKl HKr] [HEl HEr].
  rewrite tensor_add_zip by (rewrite ?HKl, ?HEl; auto). split.
  - rewrite zip_with_length, HKl, HEl. apply Nat.min_id.
  - apply zip_rows_length; assumption.
Qed.

Lemma tensor_add_entry (n : nat) (K E : matrix) (i j : nat) :
  square n K -> square n E -> (i < n)%nat -> (j < n)%nat ->
  entry (tensor_add K E) i j = entry K i j + entry E i j.
Proof.
  intros HK HE Hi Hj.
  rewrite tensor_add_zip
    by (destruct HK as [HKl HKr], HE as [HEl HEr]; rewrite ?HKl, ?HEl; auto).
  unfold entry.
  rewrite (nth_zip_with (zip_with Rplus) K E i [] [] []) by (destruct HK, HE; lia).
  apply nth_zip_with.
  - rewrite (square_row_length n K i HK) by lia. exact Hj.
  - rewrite (square_row_length n E i HE) by lia. exact Hj.
Qed.

Lemma noisy_cov_fits (obs_x : list R) (l v : R) (noise : noise_spec) :
  noise_fits (length obs_x) noise ->
  exists K_y, noisy_cov obs_x l v noise = inr K_y
    /\ square (length obs_x) K_y
    /\ forall i j : nat, (i < length obs_x)%nat -> (j < length obs_x)%nat ->
         entry K_y i j = entry (rbf_kernel obs_x obs_x l v) i j
                         + noise_at noise j * (if Nat.eqb i j then 1 else 0).
Proof.
  intros Hfit. destruct (noise_times_eye_fits noise _ Hfit) as (E & HE & HsqE & HentE).
  unfold noisy_cov. rewrite HE. eexists; split; [reflexivity|]. split.
  - apply tensor_add_square; [apply rbf_kernel_square | exact HsqE].
  - intros i j Hi Hj.
    rewrite (tensor_add_entry _ _ _ i j (rbf_kernel_square obs_x l v) HsqE Hi Hj).
    rewrite HentE by assumption. reflexivity.
Qed.

Lemma rbf_kernel_symmetric (x : list R) (l v : R) : symmetric (rbf_kernel x x l v).
Proof.
  apply (square_entry_sym _ _ (rbf_kernel_square x l v)).
  intros i j Hi Hj. rewrite !rbf_kernel_entry by assumption.
  rewrite dist_sym. reflexivity.
Qed.

Lemma noisy_cov_symmetric (obs_x : list R) (l v : R) (noise : noise_spec) (K_y : matrix) :
  noise_fits (length obs_x) noise ->
  noisy_cov obs_x l v noise = inr K_y ->
  square (length obs_x) K_y /\ symmetric K_y.
Proof.
  intros Hfit HK. destruct (noisy_cov_fits obs_x l v noise Hfit) as (K' & HK' & Hsq & Hent).
  rewrite HK in HK'. injection HK' as <-. split; [exact Hsq|].
  apply (square_entry_sym _ _ Hsq). intros i j Hi Hj.
  rewrite !Hent by assumption.   rewrite (rbf_kernel_symmetric obs_x l v i j).
  destruct (Nat.eqb_spec i j) as [->|Hne].
  - rewrite Nat.eqb_refl. reflexivity.
  - rewrite (proj2 (Nat.eqb_neq j i)) by auto. lra.
Qed.

(** ** Inner products and quadratic forms *)

Lemma dot_cons (a b : R) (p q : list R) : dot (a :: p) (b :: q) = a * b + dot p q.
Proof. reflexivity. Qed.

Lemma dot_nil_l (q : list R) : dot [] q = 0.
Proof. reflexivity. Qed.

Lemma dot_nil_r (p : list R) : dot p [] = 0.
Proof. destruct p; reflexivity. Qed.

Lemma dot_comm (p q : list R) : dot p q = dot q p.
Proof.
  revert q; induction p as [|a p IH]; intros [|b q]; try reflexivity.
  rewrite !dot_cons, IH. ring.
Qed.

Lemma dot_zeros_r (p : list R) (n : nat) : dot p (repeat 0 n) = 0.
Proof.
  revert n; induction p as [|a p IH]; intros [|n]; try reflexivity.
  simpl repeat. rewrite dot_cons, IH. ring.
Qed.

Lemma dot_zeros_l (p : list R) (n : nat) : dot (repeat 0 n) p = 0.
Proof. rewrite dot_comm. apply dot_zeros_r. Qed.

Lemma dot_scale_l (s : R) (p q : list R) :
  dot (map (fun y => y / s) p) q = dot p q / s.
Proof.
  revert q; induction p as [|a p IH]; intros [|b q]; simpl map;
    rewrite ?dot_nil_l, ?dot_nil_r; try (unfold Rdiv; ring).
  rewrite !dot_cons, IH. unfold Rdiv. ring.
Qed.

(** [sum_i x[i] * (c[i] * s + m[i])] *)
Lemma dot_zip_affine (s : R) (x c m : list R) :
  length c = length m ->
  dot x (zip_with (fun ci mi => ci * s + mi) c m) = s * dot x c + dot x m.
Proof.
  revert c m; induction x as [|a x IH]; intros [|ci c] [|mi m] H; simpl in H;
    try discriminate; simpl zip_with; rewrite ?dot_nil_l, ?dot_nil_r; try ring.
  rewrite !dot_cons, IH by lia. ring.
Qed.

Lemma mat_vec_length (A : matrix) (x : list R) : length (mat_vec A x) = length A.
Proof. apply length_map. Qed.

Lemma mat_vec_bordered (c : list R) (A' : matrix) (x0 : R) (x' : list R) :
  mat_vec (zip_with cons c A') (x0 :: x')
  = zip_with (fun ci mi => ci * x0 + mi) c (mat_vec A' x').
Proof.
  revert A'; induction c as [|ci c IH]; intros [|r A']; try reflexivity.
  simpl. rewrite <- IH. reflexivity.
Qed.

Lemma quad_bordered (a x0 : R) (r c x' : list R) (A' : matrix) :
  length c = length A' ->
  quad ((a :: r) :: zip_with cons c A') (x0 :: x')
  = a * x0 ^ 2 + x0 * dot r x' + x0 * dot c x' + quad A' x'.
Proof.
  intros Hc. unfold quad. unfold mat_vec at 1. simpl map.
  fold (mat_vec (zip_with cons c A') (x0 :: x')).
  rewrite mat_vec_bordered, !dot_cons.
  rewrite dot_zip_affine by (rewrite mat_vec_length; exact Hc).
  rewrite (dot_comm x' c). ring.
Qed.

Lemma dot_schur_row (ci : R) (c r x : list R) :
  length r = length c ->
  dot (zip_with (fun cj y => y - ci * cj) c r) x = dot r x - ci * dot c x.
Proof.
  revert r x; induction c as [|cj c IH]; intros [|y r] [|b x] H; simpl in H;
    try discriminate; simpl zip_with; rewrite ?dot_nil_l, ?dot_nil_r; try ring.
  rewrite !dot_cons, IH by lia. ring.
Qed.

Lemma mat_vec_schur_rows (c cc : list R) (A' : matrix) (x : list R) :
  Forall (fun r => length r = length c) A' ->
  mat_vec (zip_with (fun ci r => zip_with (fun cj y => y - ci * cj) c r) cc A') x
  = zip_with (fun ci mi => ci * (- dot c x) + mi) cc (mat_vec A' x).
Proof.
  revert A'; induction cc as [|ci cc IH]; intros [|r A'] H; try reflexivity.
  simpl. inversion H; subst. rewrite dot_schur_row by assumption.
  f_equal; [ring|]. apply IH; assumption.
Qed.

Lemma mat_vec_schur (c : list R) (A' : matrix) (x : list R) :
  Forall (fun r => length r = length c) A' ->
  mat_vec (schur c A') x
  = zip_with (fun ci mi => ci * (- dot c x) + mi) c (mat_vec A' x).
Proof. apply mat_vec_schur_rows. Qed.

Lemma quad_schur (c : list R) (A' : matrix) (x : list R) :
  square (length c) A' ->
  quad (schur c A') x = quad A' x - dot c x ^ 2.
Proof.
  intros [Hl Hr]. unfold quad. rewrite mat_vec_schur by exact Hr.
  rewrite dot_zip_affine by (rewrite mat_vec_length; auto).
  rewrite (dot_comm x c). ring.
Qed.

(** One elimination step on the quadratic form of a symmetric matrix. *)
Lemma quad_eliminate (a x0 : R) (c0 x' : list R) (A' : matrix) :
  0 < a -> square (length c0) A' ->
  quad ((a :: c0) :: zip_with cons c0 A') (x0 :: x')
  = (a * x0 + dot c0 x') ^ 2 / a
    + quad (schur (map (fun y => y / sqrt a) c0) A') x'.
Proof.
  intros Ha Hsq.
  rewrite quad_bordered by (destruct Hsq; auto).
  rewrite quad_schur by (rewrite length_map; exact Hsq).
  rewrite dot_scale_l.
  assert (Hs : sqrt a * sqrt a = a) by (apply sqrt_sqrt; lra).
  assert (Hs0 : sqrt a <> 0) by (pose proof (sqrt_lt_R0 a Ha); lra).
  replace (a * x0 ^ 2 + x0 * dot c0 x' + x0 * dot c0 x')
    with ((a * x0 + dot c0 x') ^ 2 / a - dot c0 x' ^ 2 / a) by (field; lra).
  replace ((dot c0 x' / sqrt a) ^ 2) with (dot c0 x' ^ 2 / a).
  - ring.
  - rewrite <- Hs at 1. field. exact Hs0.
Qed.

(** ** Bordered form of a square matrix *)

Lemma rows_bordered (n : nat) (below : matrix) :
  Forall (fun r => length r = S n) below ->
  below = zip_with cons (map (hd 0) below) (map (@tl R) below).
Proof.
  induction 1 as [|r below Hr _ IH]; [reflexivity|].
  simpl. rewrite <- IH. destruct r; [discriminate | reflexivity].
Qed.

Lemma trailing_square (n : nat) (below : matrix) :
  length below = n -> Forall (fun r => length r = S n) below ->
  square n (map (@tl R) below).
Proof.
  intros Hl Hr. split; [rewrite length_map; exact Hl|].
  apply Forall_map. eapply Forall_impl; [|exact Hr].
  intros [|a r] H; simpl in *; [discriminate | lia].
Qed.

Lemma square_S_inv (n : nat) (A : matrix) :
  square (S n) A ->
  exists a r below,
    A = (a :: r) :: below /\ length r = n /\ length below = n
    /\ Forall (fun r => length r = S n) below.
Proof.
  intros [Hl Hr]. destruct A as [|[|a r] below]; simpl in Hl; try discriminate.
  - inversion Hr; discriminate.
  - inversion Hr; subst. exists a, r, below. simpl in *. repeat split; auto; lia.
Qed.

Lemma entry_trailing (r0 : list R) (below : matrix) (i j : nat) :
  entry (map (@tl R) below) i j = entry (r0 :: below) (S i) (S j).
Proof.
  unfold entry. simpl nth at 3.
  change (@nil R) with (tl (@nil R)) at 1. rewrite map_nth.
  destruct (nth i below []); [destruct j|]; reflexivity.
Qed.

Lemma symmetric_bordered (n : nat) (a : R) (r : list R) (below : matrix) :
  length r = n -> length below = n ->
  symmetric ((a :: r) :: below) ->
  map (hd 0) below = r /\ symmetric (map (@tl R) below).
Proof.
  intros Hr Hb Hsym. split.
  - apply (nth_ext _ _ 0 0); [rewrite length_map; lia|].
    intros i Hi. rewrite length_map in Hi.
    rewrite (nth_map_in (hd 0) below i [] 0) by exact Hi.
    pose proof (Hsym (S i) 0%nat) as H. unfold entry in H. simpl in H.
    rewrite <- H. destruct (nth i below []); reflexivity.
  - intros i j. rewrite !(entry_trailing (a :: r)). apply Hsym.
Qed.

(** ** The trailing block of one elimination step *)

Lemma schur_rows_length (n : nat) (c cc : list R) (A' : matrix) :
  length c = n -> Forall (fun r => length r = n) A' ->
  Forall (fun r => length r = n)
         (zip_with (fun ci r => zip_with (fun cj y => y - ci * cj) c r) cc A').
Proof.
  intros Hc. revert A'. induction cc as [|ci cc IH]; intros [|r A'] HA; simpl;
    constructor.
  - inversion HA; subst. rewrite zip_with_length. lia.
  - apply IH. inversion HA; assumption.
Qed.

Lemma schur_square (n : nat) (c : list R) (A' : matrix) :
  length c = n -> square n A' -> square n (schur c A').
Proof.
  intros Hc [Hl Hr]. unfold schur. split.
  - rewrite zip_with_length. lia.
  - apply schur_rows_length; assumption.
Qed.

Lemma schur_entry (n : nat) (c : list R) (A' : matrix) (i j : nat) :
  length c = n -> square n A' -> (i < n)%nat -> (j < n)%nat ->
  entry (schur c A') i j = entry A' i j - nth i c 0 * nth j c 0.
Proof.
  intros Hc HA Hi Hj. unfold entry, schur.
  rewrite (nth_zip_with _ c A' i 0 [] []) by (destruct HA; lia).
  rewrite (nth_zip_with _ c (nth i A' []) j 0 0 0);
    [reflexivity | lia | rewrite (square_row_length n A' i HA Hi); exact Hj].
Qed.

Lemma schur_symmetric (n : nat) (c : list R) (A' : matrix) :
  length c = n -> square n A' -> symmetric A' -> symmetric (schur c A').
Proof.
  intros Hc HA Hsym. apply (square_entry_sym n); [apply schur_square; assumption|].
  intros i j Hi Hj. rewrite !(schur_entry n) by assumption.
  rewrite (Hsym i j). ring.
Qed.

(** ** Positive definiteness and the pivots *)

Lemma zeros_or_not (x : list R) :
  Exists (fun a => a <> 0) x \/ x = repeat 0 (length x).
Proof.
  induction x as [|a x [IH|IH]].
  - right; reflexivity.
  - left; apply Exists_cons_tl; exact IH.
  - destruct (Req_dec_T a 0) as [->|Ha].
    + right. simpl. f_equal. exact IH.
    + left. apply Exists_cons_hd. exact Ha.
Qed.

Lemma not_Exists_zeros (n : nat) : ~ Exists (fun a => a <> 0) (repeat 0 n).
Proof.
  induction n as [|n IH]; simpl; intros H; inversion H; subst; auto.
Qed.

Lemma quad_zeros (A : matrix) (n : nat) : quad A (repeat 0 n) = 0.
Proof. unfold quad. apply dot_zeros_l. Qed.

Lemma pos_def_pivot (n : nat) (a : R) (c0 : list R) (A' : matrix) :
  length c0 = n -> square n A' ->
  pos_def ((a :: c0) :: zip_with cons c0 A') -> 0 < a.
Proof.
  intros Hc HA Hpd.
  assert (H : 0 < quad ((a :: c0) :: zip_with cons c0 A') (1 :: repeat 0 n)).
  { apply Hpd.
    - simpl. rewrite zip_with_length, repeat_length. destruct HA. lia.
    - apply Exists_cons_hd. lra. }
  rewrite quad_bordered in H by (destruct HA; lia).
  rewrite dot_zeros_r, quad_zeros in H. lra.
Qed.

Lemma pos_def_eliminate (n : nat) (a : R) (c0 : list R) (A' : matrix) :
  0 < a -> length c0 = n -> square n A' ->
  (pos_def ((a :: c0) :: zip_with cons c0 A')
   <-> pos_def (schur (map (fun y => y / sqrt a) c0) A')).
Proof.
  intros Ha Hc HA.
  assert (HlenS : length (schur (map (fun y => y / sqrt a) c0) A') = n).
  { apply (schur_square n); [rewrite length_map|]; assumption. }
  assert (HlenA : length ((a :: c0) :: zip_with cons c0 A') = S n).
  { simpl. rewrite zip_with_length. destruct HA. lia. }
  assert (HA' : square (length c0) A') by (rewrite Hc; exact HA).
  split; intros Hpd x Hx Hex.
  - rewrite HlenS in Hx.
    pose proof (Hpd ((- dot c0 x / a) :: x)) as H.
    rewrite quad_eliminate in H by assumption.
    replace (a * (- dot c0 x / a) + dot c0 x) with 0 in H by (field; lra).
    replace (0 ^ 2 / a) with 0 in H by (field; lra).
    rewrite Rplus_0_l in H. apply H.
    + rewrite HlenA. simpl. lia.
    + apply Exists_cons_tl. exact Hex.
  - rewrite HlenA in Hx. destruct x as [|x0 x']; [discriminate|].
    simpl in Hx. rewrite quad_eliminate by assumption.
    assert (Hsq : 0 <= (a * x0 + dot c0 x') ^ 2 / a).
    { apply Rmult_le_pos; [apply pow2_ge_0 | left; apply Rinv_0_lt_compat; exact Ha]. }
    destruct (zeros_or_not x') as [Hnz|Hz].
    + pose proof (Hpd x') as H. rewrite HlenS in H.
      specialize (H ltac:(lia) Hnz). lra.
    + rewrite Hz. rewrite quad_zeros, dot_zeros_r.
      inversion Hex as [? ? Hx0 | ? ? Hx']; subst.
      * replace ((a * x0 + 0) ^ 2 / a + 0) with (a * x0 ^ 2) by (field; lra).
        assert (0 < x0 ^ 2) by (apply pow_lt_0 || nra). nra.
      * rewrite Hz in Hx'. exfalso. exact (not_Exists_zeros _ Hx').
Qed.

(** ** The factorisation succeeds exactly on positive-definite matrices *)

Lemma potrf_bordered (n k : nat) (a : R) (r c0 : list R) (A' : matrix) :
  length c0 = n -> square n A' ->
  potrf (S n) k ((a :: r) :: zip_with cons c0 A')
  = if Rlt_dec 0 a then
      match potrf n (S k) (schur (map (fun y => y / sqrt a) c0) A') with
      | inr L' => inr ((sqrt a :: repeat 0 n)
                         :: zip_with cons (map (fun y => y / sqrt a) c0) L')
      | inl e => inl e
      end
    else inl (RuntimeError (NotPositiveDefinite k)).
Proof.
  intros Hc [Hl Hr]. simpl.
  assert (H1 : map (fun r0 => hd 0 r0 / sqrt a) (zip_with cons c0 A')
               = map (fun y => y / sqrt a) c0).
  { clear Hr. revert A' Hl. subst n. induction c0 as [|ci c0 IH]; intros [|r' A'] Hl;
      simpl in *; try discriminate; try reflexivity.
    f_equal. apply IH. lia. }
  assert (H2 : map (@tl R) (zip_with cons c0 A') = A').
  { clear Hr H1. revert A' Hl. subst n. induction c0 as [|ci c0 IH]; intros [|r' A'] Hl;
      simpl in *; try discriminate; try reflexivity.
    f_equal. apply IH. lia. }
  rewrite H1, H2. reflexivity.
Qed.

Lemma square_symmetric_bordered (n : nat) (A : matrix) :
  square (S n) A -> symmetric A ->
  exists a c0 A',
    A = (a :: c0) :: zip_with cons c0 A'
    /\ length c0 = n /\ square n A' /\ symmetric A'.
Proof.
  intros Hsq Hsym.
  destruct (square_S_inv n A Hsq) as (a & r & below & -> & Hr & Hb & Hrows).
  destruct (symmetric_bordered n a r below Hr Hb Hsym) as [Hc HsA'].
  exists a, r, (map (@tl R) below). repeat split; auto.
  - f_equal. rewrite <- Hc. apply (rows_bordered n). exact Hrows.
  - rewrite length_map. exact Hb.
  - apply Forall_map. eapply Forall_impl; [|exact Hrows].
    intros [|y l] H; simpl in *; [discriminate | lia].
Qed.

Theorem potrf_succeeds_iff_pos_def (n k : nat) (A : matrix) :
  square n A -> symmetric A ->
  (pos_def A <-> exists L, potrf n k A = inr L).
Proof.
  revert k A. induction n as [|n IH]; intros k A Hsq Hsym.
  - destruct Hsq as [Hl _]. destruct A; [|discriminate]. split.
    + intros _. exists []. reflexivity.
    + intros _ x Hx Hex. destruct x; [inversion Hex | discriminate].
  - destruct (square_symmetric_bordered n A Hsq Hsym)
      as (a & c0 & A' & -> & Hc & HA' & HsA').
    rewrite (potrf_bordered n k a c0 c0 A' Hc HA').
    assert (HS : square n (schur (map (fun y => y / sqrt a) c0) A')).
    { apply schur_square; [rewrite length_map|]; assumption. }
    assert (HSs : symmetric (schur (map (fun y => y / sqrt a) c0) A')).
    { apply (schur_symmetric n); [rewrite length_map| |]; assumption. }
    split.
    + intros Hpd. pose proof (pos_def_pivot n a c0 A' Hc HA' Hpd) as Ha.
      destruct (Rlt_dec 0 a) as [_|Hn]; [|contradiction].
      apply (pos_def_eliminate n a c0 A' Ha Hc HA') in Hpd.
      apply (IH (S k) _ HS HSs) in Hpd. destruct Hpd as [L' ->].
      eexists. reflexivity.
    + intros [L HL]. destruct (Rlt_dec 0 a) as [Ha|Hn]; [|discriminate].
      apply (pos_def_eliminate n a c0 A' Ha Hc HA').
      apply (IH (S k) _ HS HSs).
      destruct (potrf n (S k) _) as [e|L']; [discriminate|]. exists L'. reflexivity.
Qed.

Lemma potrf_failure (n k : nat) (A : matrix) (e : exn) :
  potrf n k A = inl e ->
  exists j, (k <= j < k + n)%nat /\ e = RuntimeError (NotPositiveDefinite j).
Proof.
  revert k A. induction n as [|n IH]; intros k A H; simpl in H.
  - discriminate.
  - destruct A as [|[|a r] below]; try discriminate.
    destruct (Rlt_dec 0 a).
    + destruct (potrf n (S k) _) as [e'|L'] eqn:E; [|discriminate].
      injection H as <-. destruct (IH _ _ E) as (j & Hj & ->).
      exists j. split; [lia | reflexivity].
    + injection H as <-. exists k. split; [lia | reflexivity].
Qed.

Lemma potrf_chol_factor (n k : nat) (A L : matrix) :
  square n A -> potrf n k A = inr L -> chol_factor n L.
Proof.
  revert k A L. induction n as [|n IH]; intros k A L Hsq H.
  - simpl in H. injection H as <-. constructor.
  - destruct (square_S_inv n A Hsq) as (a & r & below & -> & Hr & Hb & Hrows).
    simpl in H. destruct (Rlt_dec 0 a) as [Ha|]; [|discriminate].
    destruct (potrf n (S k) _) as [e|L'] eqn:E; [discriminate|].
    injection H as <-. constructor.
    + apply sqrt_lt_R0. exact Ha.
    + rewrite length_map. exact Hb.
    + apply (IH (S k) _ _ (schur_square n _ _ ltac:(rewrite length_map; exact Hb)
                             (trailing_square n below Hb Hrows)) E).
Qed.

(** ** Shapes of factors, transposes and solutions *)

Lemma is_square_true (n : nat) (A : matrix) : square n A -> is_square A = true.
Proof.
  intros [Hl Hr]. unfold is_square. apply forallb_forall.
  rewrite Forall_forall in Hr. intros r Hin. apply Nat.eqb_eq.
  rewrite (Hr r Hin). symmetry. exact Hl.
Qed.

Lemma bordered_rows_length (n : nat) (c : list R) (L' : matrix) :
  Forall (fun r => length r = n) L' ->
  Forall (fun r => length r = S n) (zip_with cons c L').
Proof.
  revert L'. induction c as [|ci c IH]; intros [|r L'] H; simpl; constructor.
  - inversion H; subst. reflexivity.
  - apply IH. inversion H; assumption.
Qed.

Lemma chol_factor_square (n : nat) (L : matrix) : chol_factor n L -> square n L.
Proof.
  induction 1 as [|n d c L' Hd Hc _ [IHl IHr]].
  - split; [reflexivity | constructor].
  - split.
    + simpl. rewrite zip_with_length. lia.
    + constructor; [simpl; rewrite repeat_length; reflexivity|].
      apply bordered_rows_length. exact IHr.
Qed.

Lemma tl_bordered (c : list R) (L' : matrix) :
  length c = length L' -> map (@tl R) (zip_with cons c L') = L'.
Proof.
  revert L'. induction c as [|ci c IH]; intros [|r L'] H; simpl in *;
    try discriminate; try reflexivity.
  f_equal. apply IH. lia.
Qed.

Lemma hd_bordered (c : list R) (L' : matrix) :
  length c = length L' -> map (hd 0) (zip_with cons c L') = c.
Proof.
  revert L'. induction c as [|ci c IH]; intros [|r L'] H; simpl in *;
    try discriminate; try reflexivity.
  f_equal. apply IH. lia.
Qed.

Lemma diag_cons (r : list R) (B : matrix) :
  diag (r :: B) = hd 0 r :: diag (map (@tl R) B).
Proof.
  unfold diag. simpl length. rewrite length_map. simpl seq. simpl map. f_equal.
  - unfold entry. simpl. destruct r; reflexivity.
  - rewrite <- seq_shift, map_map. apply map_ext. intros i.
    symmetry. apply entry_trailing.
Qed.

Lemma chol_factor_diag_pos (n : nat) (L : matrix) :
  chol_factor n L -> Forall (fun d => 0 < d) (diag L).
Proof.
  induction 1 as [|n d c L' Hd Hc HL IH].
  - constructor.
  - rewrite diag_cons. simpl hd.
    rewrite tl_bordered by (destruct (chol_factor_square n L' HL); lia).
    constructor; assumption.
Qed.

Lemma first_zero_none (k : nat) (l : list R) :
  Forall (fun d => 0 < d) l -> first_zero k l = None.
Proof.
  intros H. revert k. induction H as [|d l Hd _ IH]; intros k; simpl; [reflexivity|].
  destruct (Req_dec_T d 0); [lra | apply IH].
Qed.

Lemma transpose_length (m : nat) (A : matrix) :
  Forall (fun r => length r = m) A -> length (transpose m A) = m.
Proof.
  induction 1 as [|r A Hr _ IH]; simpl.
  - apply repeat_length.
  - rewrite zip_with_length, IH, Hr. apply Nat.min_id.
Qed.

Lemma transpose_rows (m : nat) (A : matrix) :
  Forall (fun r => length r = length A) (transpose m A).
Proof.
  induction A as [|r A IH]; simpl.
  - induction m; simpl; constructor; auto.
  - apply bordered_rows_length. exact IH.
Qed.

Lemma transpose_entry (m : nat) (A : matrix) (i j : nat) :
  Forall (fun r => length r = m) A -> (i < m)%nat ->
  entry (transpose m A) i j = entry A j i.
Proof.
  intros HA Hi. revert j. induction HA as [|r A Hr HA IH]; intros j.
  - unfold entry. simpl.
    rewrite nth_repeat. destruct j; destruct i; reflexivity.
  - simpl transpose. unfold entry at 1.
    rewrite (nth_zip_with cons r (transpose m A) i 0 [] [])
      by (rewrite ?transpose_length by exact HA; lia).
    destruct j as [|j]; simpl; [reflexivity|]. apply IH.
Qed.

Lemma transpose_square (n : nat) (A : matrix) :
  square n A -> square n (transpose n A).
Proof.
  intros [Hl Hr]. split; [apply transpose_length; exact Hr|].
  pose proof (transpose_rows n A) as H. rewrite Hl in H. exact H.
Qed.

Lemma transpose_diag (n : nat) (A : matrix) :
  square n A -> diag (transpose n A) = diag A.
Proof.
  intros HA. pose proof (transpose_square n A HA) as [Hl _].
  destruct HA as [HlA HrA]. unfold diag. rewrite Hl, HlA.
  apply map_ext_in. intros i Hi. apply in_seq in Hi.
  apply transpose_entry; [exact HrA | lia].
Qed.

Lemma solve_lower_length (n : nat) (A B : matrix) :
  square n A -> length B = n -> length (solve_lower n A B) = n.
Proof.
  revert A B. induction n as [|n IH]; intros A B HA HB; [reflexivity|].
  destruct (square_S_inv n A HA) as (a & r & below & -> & Hr & Hb & Hrows).
  destruct B as [|b B']; [discriminate|]. simpl. f_equal.
  apply IH; [apply trailing_square; assumption|].
  rewrite zip_with_length. simpl in HB. lia.
Qed.

Lemma solve_upper_length (n : nat) (U B : matrix) :
  square n U -> length B = n -> length (solve_upper n U B) = n.
Proof.
  revert U B. induction n as [|n IH]; intros U B HU HB; [reflexivity|].
  destruct (square_S_inv n U HU) as (a & r & below & -> & Hr & Hb & Hrows).
  destruct B as [|b B']; [discriminate|]. simpl. f_equal.
  apply IH; [apply trailing_square; assumption|]. simpl in HB. lia.
Qed.

(** ** Running the library calls *)

Lemma bind_ok {X Y : Type} (t : list call) (x : X) (f : X -> M Y) :
  bind (t, inr x) f = (t ++ fst (f x), snd (f x)).
Proof. unfold bind. destruct (f x); reflexivity. Qed.

Lemma bind_raise {X Y : Type} (t : list call) (e : exn) (f : X -> M Y) :
  bind (t, inl e) f = (t, inl e).
Proof. reflexivity. Qed.

Lemma torch_cholesky_run (n : nat) (A : matrix) :
  square n A ->
  torch_cholesky A = ([Cholesky A], potrf n 1 A).
Proof.
  intros HA. unfold torch_cholesky, record.
  rewrite (is_square_true n A HA). destruct HA as [-> _]. reflexivity.
Qed.

Lemma torch_trtrs_ok (n : nat) (b A : matrix) (upper : bool) :
  square n A -> length b = n -> Forall (fun d => 0 < d) (diag A) ->
  torch_trtrs b A upper
  = ([Trtrs b A upper],
     inr (if upper then solve_upper n A b else solve_lower n A b)).
Proof.
  intros HA Hb Hd. unfold torch_trtrs, record.
  rewrite (is_square_true n A HA). destruct HA as [HlA _].
  rewrite Hb, HlA, Nat.eqb_refl. simpl.
  rewrite (first_zero_none 1 _ Hd). reflexivity.
Qed.

(** ** Runs of [gp_inference] *)

Lemma column_length (t : list R) : length (column t) = length t.
Proof. apply length_map. Qed.

(** The run when the factorisation succeeds. *)
Lemma gp_inference_run (obs_x obs_t x_new : list R) (l v : R) (noise : noise_spec)
  (m0 : R) (K_y L : matrix) :
  length obs_t = length obs_x ->
  noisy_cov obs_x l v noise = inr K_y ->
  square (length obs_x) K_y ->
  potrf (length obs_x) 1 K_y = inr L ->
  let N := length obs_x in
  let t := column (map (fun y => y - m0) obs_t) in
  let U := transpose N L in
  let z := solve_lower N L t in
  let alpha := solve_upper N U z in
  let K_obs_pred := rbf_kernel obs_x x_new l v in
  let w := solve_lower N L K_obs_pred in
  let vv := solve_upper N U w in
  gp_inference obs_x obs_t x_new (l, v, noise) m0
  = ([Cholesky K_y; Trtrs t L false; Trtrs z U true;
      Trtrs K_obs_pred L false; Trtrs w U true; Trtrs t L false],
     inr (map (fun r => hd 0 r + m0)
              (matmul 1 (transpose (length x_new) K_obs_pred) alpha),
          mat_sub (rbf_kernel x_new x_new l v)
                  (matmul (length x_new) (transpose (length x_new) K_obs_pred) vv),
          log_lik_expr L z N)).
Proof.
  intros Ht HK Hsq HL N t U z alpha K_obs_pred w vv.
  pose proof (potrf_chol_factor N 1 K_y L Hsq HL) as HcL.
  pose proof (chol_factor_square N L HcL) as HsqL.
  pose proof (chol_factor_diag_pos N L HcL) as HdL.
  pose proof (transpose_square N L HsqL) as HsqU.
  assert (HdU : Forall (fun d => 0 < d) (diag U)).
  { unfold U. rewrite (transpose_diag N L HsqL). exact HdL. }
  assert (Hlt : length t = N).
  { unfold t. rewrite column_length, length_map. exact Ht. }
  unfold gp_inference. rewrite HK. unfold lift. rewrite bind_ok.
  rewrite (torch_cholesky_run N K_y Hsq). fold N in HL. rewrite HL.
  rewrite bind_ok. fold t. 
  rewrite (torch_trtrs_ok N t L false HsqL Hlt HdL). rewrite bind_ok. fold N U z.
  rewrite (torch_trtrs_ok N z U true HsqU (solve_lower_length N L t HsqL Hlt) HdU).
  rewrite bind_ok. fold alpha K_obs_pred.
  assert (HlK : length K_obs_pred = N) by apply rbf_kernel_length.
  rewrite (torch_trtrs_ok N K_obs_pred L false HsqL HlK HdL). rewrite bind_ok. fold w.
  rewrite (torch_trtrs_ok N w U true HsqU
             (solve_lower_length N L K_obs_pred HsqL HlK) HdU).
  rewrite bind_ok. fold vv. rewrite bind_ok.
  reflexivity.
Qed.

(** The run when the factorisation fails. *)
Lemma gp_inference_cholesky_fails (obs_x obs_t x_new : list R) (l v : R)
  (noise : noise_spec) (m0 : R) (K_y : matrix) (e : exn) :
  noisy_cov obs_x l v noise = inr K_y ->
  square (length obs_x) K_y ->
  potrf (length obs_x) 1 K_y = inl e ->
  gp_inference obs_x obs_t x_new (l, v, noise) m0 = ([Cholesky K_y], inl e).
Proof.
  intros HK Hsq HL. unfold gp_inference. rewrite HK. unfold lift. rewrite bind_ok.
  rewrite (torch_cholesky_run _ K_y Hsq), HL. reflexivity.
Qed.

(** Whenever [K_y] can be formed, the factorisation is the first library call. *)
Lemma gp_inference_reaches_cholesky (obs_x obs_t x_new : list R) (l v : R)
  (noise : noise_spec) (m0 : R) (K_y : matrix) :
  noisy_cov obs_x l v noise = inr K_y ->
  exists rest,
    trace_of (gp_inference obs_x obs_t x_new (l, v, noise) m0) = Cholesky K_y :: rest.
Proof.
  intros HK. unfold gp_inference. rewrite HK. unfold lift. rewrite bind_ok.
  unfold torch_cholesky, record.
  destruct (if is_square K_y then _ else _) as [e|L].
  - rewrite bind_raise. eexists. reflexivity.
  - rewrite bind_ok. unfold trace_of. simpl. eexists. reflexivity.
Qed.

(** ** The triangular solves solve, the factor factors *)

Lemma zip_plus_zeros_r (b : list R) (m : nat) :
  length b = m -> zip_with Rplus b (repeat 0 m) = b.
Proof.
  revert m; induction b as [|x b IH]; intros [|m] H; simpl in *; try discriminate;
    try reflexivity.
  rewrite IH by lia. f_equal. ring.
Qed.

Lemma zip_plus_zero_scaled (b y : list R) :
  length b = length y -> zip_with Rplus (map (Rmult 0) b) y = y.
Proof.
  revert y; induction b as [|x b IH]; intros [|u y] H; simpl in *; try discriminate;
    try reflexivity.
  rewrite IH by lia. f_equal. ring.
Qed.

Lemma row_comb_length (m : nat) (r : list R) (B : matrix) :
  Forall (fun b => length b = m) B -> length (row_comb m r B) = m.
Proof.
  intros HB. revert r. induction HB as [|b B Hb _ IH]; intros [|a r]; simpl;
    try apply repeat_length.
  rewrite zip_with_length, length_map, IH, Hb. apply Nat.min_id.
Qed.

Lemma row_comb_zeros (m k : nat) (B : matrix) :
  Forall (fun b => length b = m) B -> row_comb m (repeat 0 k) B = repeat 0 m.
Proof.
  intros HB. revert k. induction HB as [|b B Hb _ IH]; intros [|k]; simpl;
    try reflexivity.
  rewrite IH. apply zip_plus_zero_scaled. rewrite repeat_length. exact Hb.
Qed.

Lemma solve_lower_rows (n m : nat) (A B : matrix) :
  Forall (fun b => length b = m) B ->
  Forall (fun b => length b = m) (solve_lower n A B).
Proof.
  revert A B. induction n as [|n IH]; intros A B HB; simpl; [constructor|].
  destruct A as [|[|d r] below]; try constructor.
  destruct B as [|b B']; constructor.
  - rewrite length_map. inversion HB; assumption.
  - apply IH. inversion HB as [|? ? Hb HB']; subst. clear IH HB.
    revert below. induction HB' as [|bi B' Hbi _ IHB]; intros [|ri below]; simpl;
      constructor.
    + rewrite zip_with_length, length_map, Hbi. apply Nat.min_id.
    + apply IHB.
Qed.

Lemma solve_upper_rows (n m : nat) (U B : matrix) :
  Forall (fun b => length b = m) B ->
  Forall (fun b => length b = m) (solve_upper n U B).
Proof.
  revert U B. induction n as [|n IH]; intros U B HB; simpl; [constructor|].
  destruct U as [|[|d r] below]; try constructor.
  destruct B as [|b B']; constructor.
  - inversion HB as [|? ? Hb HB']; subst.
    rewrite length_map, zip_with_length, row_comb_length by (apply IH; exact HB').
    apply Nat.min_id.
  - apply IH. inversion HB; assumption.
Qed.

(** Rows of a bordered matrix against a stacked right operand. *)
Lemma matmul_bordered (m : nat) (c : list R) (L' : matrix) (z : list R) (Z' : matrix) :
  matmul m (zip_with cons c L') (z :: Z')
  = zip_with (fun ci y => zip_with Rplus (map (Rmult ci) z) y) c (matmul m L' Z').
Proof.
  revert L'. induction c as [|ci c IH]; intros [|r L']; try reflexivity.
  simpl. f_equal. apply IH.
Qed.

Lemma zip_below_hd {X Y : Type} (f : R -> X -> Y) (c : list R) (L' : matrix)
  (B : list X) :
  length c = length L' ->
  zip_with (fun r b => f (hd 0 r) b) (zip_with cons c L') B
  = zip_with f c B.
Proof.
  revert L' B. induction c as [|ci c IH]; intros [|r L'] [|b B] H; simpl in *;
    try discriminate; try reflexivity.
  f_equal. apply IH. lia.
Qed.

Lemma restore_rows (m : nat) (c z : list R) (B : matrix) :
  length z = m -> length c = length B -> Forall (fun b => length b = m) B ->
  zip_with (fun ci y => zip_with Rplus (map (Rmult ci) z) y) c
           (zip_with (fun ci bi => zip_with (fun bij zj => bij - ci * zj) bi z) c B)
  = B.
Proof.
  intros Hz. revert B. induction c as [|ci c IH]; intros [|b B] Hc HB; simpl in *;
    try discriminate; try reflexivity.
  inversion HB as [|? ? Hb HB']; subst. f_equal; [|apply IH; [lia | exact HB']].
  clear IH HB HB' Hc. revert z Hb. induction b as [|x b IHb]; intros [|u z] H;
    simpl in *; try discriminate; try reflexivity.
  f_equal; [ring | apply IHb; lia].
Qed.

Lemma scale_back (d : R) (b : list R) :
  d <> 0 -> map (Rmult d) (map (fun x => x / d) b) = b.
Proof.
  intros Hd. rewrite map_map. rewrite <- (map_id b) at 2.
  apply map_ext. intros x. field. exact Hd.
Qed.

(** Forward substitution returns the solution of [L Z = B]. *)
Theorem solve_lower_correct (n m : nat) (L B : matrix) :
  chol_factor n L -> length B = n -> Forall (fun b => length b = m) B ->
  matmul m L (solve_lower n L B) = B.
Proof.
  intros HL. revert B. induction HL as [|n d c L' Hd Hc HL' IH]; intros B HB Hrows.
  - destruct B; [reflexivity | discriminate].
  - destruct B as [|b B']; [discriminate|]. simpl in HB.
    inversion Hrows as [|? ? Hb Hrows']; subst.
    pose proof (chol_factor_square _ L' HL') as [HlL' HrL'].
    simpl solve_lower. rewrite tl_bordered by lia.
    rewrite (zip_below_hd
               (fun ci bi => zip_with (fun bij zj => bij - ci * zj) bi
                                      (map (fun x => x / d) b)))
      by lia.
    set (z := map (fun x => x / d) b).
    set (B'' := zip_with (fun ci bi => zip_with (fun bij zj => bij - ci * zj) bi z) c B').
    assert (Hz : length z = length b) by (unfold z; apply length_map).
    assert (HB''l : length B'' = length c).
    { unfold B''. rewrite zip_with_length. lia. }
    assert (HB''r : Forall (fun y => length y = length b) B'').
    { unfold B''. clear - Hrows' Hz. revert c.
      induction Hrows' as [|bi B' Hbi _ IHB]; intros [|ci c]; simpl; constructor.
      - rewrite zip_with_length, Hz, Hbi. apply Nat.min_id.
      - apply IHB. }
    specialize (IH B'' HB''l HB''r).
    unfold matmul at 1. simpl map.
    fold (matmul (length b) (zip_with cons c L') (z :: solve_lower (length c) L' B'')).
    rewrite matmul_bordered, IH. f_equal.
    + rewrite (row_comb_zeros (length b) (length c))
        by (apply (solve_lower_rows (length c) (length b)); exact HB''r).
      rewrite zip_plus_zeros_r by (rewrite length_map; exact Hz).
      unfold z. apply scale_back. lra.
    + unfold B''. apply (restore_rows (length b)); [exact Hz | lia | exact Hrows'].
Qed.

Lemma transpose_bordered (n : nat) (c : list R) (L' : matrix) :
  length c = length L' ->
  transpose (S n) (zip_with cons c L') = c :: transpose n L'.
Proof.
  revert L'. induction c as [|ci c IH]; intros [|r L'] H; simpl in *;
    try discriminate; try reflexivity.
  rewrite IH by lia. reflexivity.
Qed.

Lemma zip_cons_zeros (n : nat) (T : matrix) :
  length T = n -> zip_with cons (repeat 0 n) T = map (cons 0) T.
Proof.
  revert n. induction T as [|t T IH]; intros [|n] H; simpl in *;
    try discriminate; try reflexivity.
  rewrite IH by lia. reflexivity.
Qed.

(** The transpose of a factor, in bordered form. *)
Lemma transpose_chol_factor (n : nat) (d : R) (c : list R) (L' : matrix) :
  length c = n -> chol_factor n L' ->
  transpose (S n) ((d :: repeat 0 n) :: zip_with cons c L')
  = (d :: c) :: map (cons 0) (transpose n L').
Proof.
  intros Hc HL'. pose proof (chol_factor_square n L' HL') as [Hl Hr].
  simpl transpose. rewrite transpose_bordered by lia. simpl.
  rewrite zip_cons_zeros by (apply transpose_length; exact Hr). reflexivity.
Qed.

Lemma tl_cons_zero (T : matrix) : map (@tl R) (map (cons 0) T) = T.
Proof. rewrite map_map. simpl. apply map_id. Qed.

Lemma matmul_zero_column (m : nat) (T : matrix) (x0 : list R) (X' : matrix) :
  length x0 = m -> Forall (fun b => length b = m) X' ->
  matmul m (map (cons 0) T) (x0 :: X') = matmul m T X'.
Proof.
  intros Hx HX. unfold matmul. rewrite map_map. apply map_ext. intros u. simpl.
  apply zip_plus_zero_scaled. rewrite row_comb_length by exact HX. exact Hx.
Qed.

Lemma restore_row (d : R) (b y : list R) :
  d <> 0 -> length y = length b ->
  zip_with Rplus (map (Rmult d) (map (fun x => x / d) (zip_with Rminus b y))) y = b.
Proof.
  intros Hd. revert y. induction b as [|x b IH]; intros [|u y] H; simpl in *;
    try discriminate; try reflexivity.
  f_equal; [field; exact Hd | apply IH; lia].
Qed.

(** Backward substitution returns the solution of [L^T X = B]. *)
Theorem solve_upper_correct (n m : nat) (L B : matrix) :
  chol_factor n L -> length B = n -> Forall (fun b => length b = m) B ->
  matmul m (transpose n L) (solve_upper n (transpose n L) B) = B.
Proof.
  intros HL. revert B. induction HL as [|n d c L' Hd Hc HL' IH]; intros B HB Hrows.
  - destruct B; [reflexivity | discriminate].
  - destruct B as [|b B']; [discriminate|]. simpl in HB.
    inversion Hrows as [|? ? Hb Hrows']; subst.
    rewrite transpose_chol_factor by auto.
    simpl solve_upper. rewrite tl_cons_zero.
    set (X' := solve_upper (length c) (transpose (length c) L') B').
    assert (HX' : Forall (fun y => length y = length b) X')
      by (apply solve_upper_rows; exact Hrows').
    set (x0 := map (fun x => x / d)
                   (zip_with Rminus b (row_comb (length b) c X'))).
    assert (Hx0 : length x0 = length b).
    { unfold x0. rewrite length_map, zip_with_length, row_comb_length by exact HX'.
      apply Nat.min_id. }
    unfold matmul at 1. simpl map.
    fold (matmul (length b) (map (cons 0) (transpose (length c) L')) (x0 :: X')).
    rewrite (matmul_zero_column (length b)) by assumption.
    unfold X' at 2. rewrite IH by (auto; lia). f_equal.
    unfold x0. apply restore_row; [lra|].
    apply row_comb_length. exact HX'.
Qed.

(** ** The factor reproduces the matrix *)

Lemma row_comb_zero_column (n : nat) (r : list R) (T : matrix) :
  row_comb (S n) r (map (cons 0) T) = 0 :: row_comb n r T.
Proof.
  revert T. induction r as [|a r IH]; intros [|t T]; try reflexivity.
  simpl. rewrite IH. simpl. f_equal. ring.
Qed.

Lemma restore_schur_row (ci : R) (c r : list R) :
  length r = length c ->
  zip_with Rplus (map (Rmult ci) c) (zip_with (fun cj y => y - ci * cj) c r) = r.
Proof.
  revert r. induction c as [|cj c IH]; intros [|y r] H; simpl in *;
    try discriminate; try reflexivity.
  f_equal; [ring | apply IH; lia].
Qed.

Lemma restore_bordered (d : R) (c cc0 : list R) (A' : matrix) :
  d <> 0 -> Forall (fun r => length r = length c) A' ->
  zip_with (fun ci y => zip_with Rplus (map (Rmult ci) (d :: c)) y)
           (map (fun y => y / d) cc0)
           (map (cons 0)
                (zip_with (fun ci r => zip_with (fun cj x => x - ci * cj) c r)
                          (map (fun y => y / d) cc0) A'))
  = zip_with cons cc0 A'.
Proof.
  intros Hd. revert A'. induction cc0 as [|x cc0 IH]; intros [|r A'] HA;
    try reflexivity.
  inversion HA as [|? ? Hr HA']; subst. simpl. f_equal.
  - f_equal; [field; exact Hd | apply restore_schur_row; exact Hr].
  - apply IH. exact HA'.
Qed.

Lemma scale_back_div (d : R) (c0 : list R) :
  d <> 0 -> map (Rmult d) (map (fun y => y / d) c0) = c0.
Proof. apply scale_back. Qed.

(** [potrf] returns a factor of the matrix it was given: [L L^T = A]. *)
Theorem potrf_factorises (n k : nat) (A L : matrix) :
  square n A -> symmetric A -> potrf n k A = inr L ->
  matmul n L (transpose n L) = A.
Proof.
  revert k A L. induction n as [|n IH]; intros k A L Hsq Hsym H.
  - destruct Hsq as [Hl _]. destruct A; [|discriminate].
    simpl in H. injection H as <-. reflexivity.
  - destruct (square_symmetric_bordered n A Hsq Hsym)
      as (a & c0 & A' & -> & Hc & HA' & HsA').
    rewrite (potrf_bordered n k a c0 c0 A' Hc HA') in H.
    destruct (Rlt_dec 0 a) as [Ha|]; [|discriminate].
    set (d := sqrt a) in *. set (c := map (fun y => y / d) c0) in *.
    assert (Hd : 0 < d) by (apply sqrt_lt_R0; exact Ha).
    assert (Hdd : d * d = a) by (apply sqrt_sqrt; lra).
    assert (Hlc : length c = n) by (unfold c; rewrite length_map; exact Hc).
    assert (HS : square n (schur c A')) by (apply schur_square; assumption).
    assert (HSs : symmetric (schur c A')) by (apply (schur_symmetric n); assumption).
    destruct (potrf n (S k) (schur c A')) as [e|L'] eqn:E; [discriminate|].
    injection H as <-.
    pose proof (potrf_chol_factor n (S k) _ L' HS E) as HL'.
    pose proof (chol_factor_square n L' HL') as [HlL' HrL'].
    specialize (IH (S k) _ L' HS HSs E).
    rewrite transpose_chol_factor by assumption.
    unfold matmul at 1. simpl map.
    fold (matmul (S n) (zip_with cons c L') ((d :: c) :: map (cons 0) (transpose n L'))).
    rewrite matmul_bordered. f_equal.
    + rewrite row_comb_zero_column.
      rewrite (row_comb_zeros n n)
        by (pose proof (transpose_rows n L') as HT; rewrite HlL' in HT; exact HT).
      simpl. f_equal; [rewrite <- Hdd; ring|].
      rewrite zip_plus_zeros_r by (rewrite length_map; exact Hlc).
      unfold c. apply scale_back. lra.
    + assert (HM : matmul (S n) L' (map (cons 0) (transpose n L'))
                   = map (cons 0) (matmul n L' (transpose n L'))).
      { unfold matmul. rewrite map_map. apply map_ext. intros r.
        apply row_comb_zero_column. }
      rewrite HM, IH. unfold schur, c. apply restore_bordered; [lra|].
      destruct HA' as [_ HrA']. fold c. rewrite Hlc. exact HrA'.
Qed.

(** ** Every noisy covariance is square and symmetric, or not square at all *)

Lemma is_square_false_not_square (n : nat) (A : matrix) :
  is_square A = false -> ~ square n A.
Proof.
  intros Hf Hsq. rewrite (is_square_true n A Hsq) in Hf. discriminate.
Qed.

Lemma noisy_cov_shape (obs_x : list R) (l v : R) (noise : noise_spec) (K_y : matrix) :
  noisy_cov obs_x l v noise = inr K_y ->
  (square (length obs_x) K_y /\ symmetric K_y) \/ is_square K_y = false.
Proof.
  intros HK. destruct noise as [s|w].
  - left. apply (noisy_cov_symmetric obs_x l v (NoiseScalar s)); [exact I | exact HK].
  - destruct (Nat.eqb_spec (length w) (length obs_x)) as [Hfit|Hnf].
    + left. apply (noisy_cov_symmetric obs_x l v (NoiseVector w)); assumption.
    + destruct (Nat.eqb_spec (length w) 1) as [H1|Hn1].
      * left. apply (noisy_cov_symmetric obs_x l v (NoiseScalar (hd 0 w))); [exact I|].
        rewrite <- HK. unfold noisy_cov, noise_times_eye.
        rewrite (proj2 (Nat.eqb_neq _ _) Hnf), (proj2 (Nat.eqb_eq _ _) H1).
        reflexivity.
      * right. unfold noisy_cov, noise_times_eye in HK.
        rewrite (proj2 (Nat.eqb_neq _ _) Hnf), (proj2 (Nat.eqb_neq _ _) Hn1) in HK.
        destruct (Nat.eqb_spec (length obs_x) 1) as [HN|HN]; [|discriminate].
        destruct obs_x as [|x [|x' xs]]; try discriminate.
        injection HK as <-. simpl. unfold is_square. simpl forallb.
        rewrite !length_map. simpl length.
        rewrite (proj2 (Nat.eqb_neq _ _) Hn1). reflexivity.
Qed.

Lemma SPD_noisy_cov_square (obs_x : list R) (l v : R) (noise : noise_spec)
  (K_y : matrix) :
  noisy_cov obs_x l v noise = inr K_y -> SPD K_y ->
  square (length obs_x) K_y.
Proof.
  intros HK (Hsq & _ & _).
  destruct (noisy_cov_shape obs_x l v noise K_y HK) as [[H _]|H]; [exact H|].
  exfalso. exact (is_square_false_not_square _ K_y H Hsq).
Qed.

(** ** The posterior mean, entry by entry *)

Lemma row_comb_single (r : list R) (B : matrix) :
  Forall (fun b => length b = 1%nat) B ->
  row_comb 1 r B = [dot r (col 0 B)].
Proof.
  intros HB. revert r. induction HB as [|b B Hb _ IH]; intros [|a r]; try reflexivity.
  destruct b as [|b0 [|b1 b]]; try discriminate.
  simpl. rewrite IH. simpl. rewrite dot_cons. reflexivity.
Qed.

Lemma transpose_row (m : nat) (A : matrix) (j : nat) :
  Forall (fun r => length r = m) A -> (j < m)%nat ->
  nth j (transpose m A) [] = col j A.
Proof.
  intros HA Hj. apply (nth_ext _ _ 0 0).
  - unfold col. rewrite length_map.
    pose proof (transpose_rows m A) as H. rewrite Forall_forall in H.
    apply H, nth_In. rewrite transpose_length by exact HA. exact Hj.
  - intros i Hi. fold (entry (transpose m A) j i).
    rewrite transpose_entry by assumption.
    unfold col, entry.
    destruct (Nat.lt_ge_cases i (length A)) as [Hlt|Hge].
    + rewrite (nth_map_in (fun r => nth j r 0) A i [] 0) by exact Hlt. reflexivity.
    + rewrite (nth_overflow A) by exact Hge.
      rewrite (nth_overflow (map (fun r => nth j r 0) A))
        by (rewrite length_map; exact Hge).
      destruct j; reflexivity.
Qed.

Lemma column_rows (t : list R) : Forall (fun b => length b = 1%nat) (column t).
Proof. unfold column. apply Forall_map, Forall_forall. reflexivity. Qed.

Lemma posterior_mean_entry (m0 : R) (K_obs_pred alpha : matrix) (M j : nat) :
  Forall (fun r => length r = M) K_obs_pred ->
  Forall (fun b => length b = 1%nat) alpha ->
  (j < M)%nat ->
  nth j (map (fun r => hd 0 r + m0) (matmul 1 (transpose M K_obs_pred) alpha)) 0
  = dot (col j K_obs_pred) (col 0 alpha) + m0.
Proof.
  intros HK Ha Hj. unfold matmul. rewrite map_map.
  rewrite (nth_map_in _ (transpose M K_obs_pred) j [] 0)
    by (rewrite transpose_length by exact HK; exact Hj).
  rewrite transpose_row by assumption.
  rewrite row_comb_single by exact Ha. reflexivity.
Qed.

(** ** A single observation *)

Lemma spd_single (a : R) : 0 < a -> SPD [[a]].
Proof.
  intros Ha. assert (Hsq : square 1 [[a]]).
  { split; [reflexivity | repeat constructor]. }
  split; [exact Hsq | split].
  - apply (square_entry_sym 1 _ Hsq). intros i j Hi Hj.
    replace i with 0%nat by lia. replace j with 0%nat by lia. reflexivity.
  - intros x Hx Hex. destruct x as [|x0 [|x1 x]]; try discriminate.
    unfold quad, mat_vec, dot, Rsum. simpl.
    inversion Hex as [? ? H0|? ? H0]; subst; [|inversion H0].
    assert (0 < x0 * x0) by (destruct (Rtotal_order x0 0) as [|[|]]; [nra | lra | nra]).
    nra.
Qed.

Lemma rbf_of_dist_pos (l v d : R) : 0 < v -> 0 < rbf_of_dist l v d.
Proof. intros Hv. unfold rbf_of_dist. apply Rmult_lt_0_compat; [exact Hv | apply exp_pos]. Qed.

Lemma noisy_cov_single (x l v s : R) :
  noisy_cov [x] l v (NoiseScalar s) = inr [[rbf_of_dist l v (dist x x) + s * 1]].
Proof. reflexivity. Qed.

Lemma not_spd_single (a : R) : a <= 0 -> ~ SPD [[a]].
Proof.
  intros Ha (_ & _ & Hpd).
  assert (H : 0 < quad [[a]] [1]).
  { apply Hpd; [reflexivity | apply Exists_cons_hd; lra]. }
  unfold quad, mat_vec, dot, Rsum in H. simpl in H. lra.
Qed.

(** ** Inference on a positive-definite covariance *)

Lemma spd_factor (obs_x : list R) (l v : R) (noise : noise_spec) (K_y : matrix) :
  noisy_cov obs_x l v noise = inr K_y -> SPD K_y ->
  square (length obs_x) K_y
  /\ exists L, potrf (length obs_x) 1 K_y = inr L
       /\ chol_factor (length obs_x) L
       /\ matmul (length obs_x) L (transpose (length obs_x) L) = K_y.
Proof.
  intros HK HSPD. pose proof (SPD_noisy_cov_square obs_x l v noise K_y HK HSPD) as Hsq.
  destruct HSPD as (_ & Hsym & Hpd). split; [exact Hsq|].
  destruct (proj1 (potrf_succeeds_iff_pos_def _ 1 K_y Hsq Hsym) Hpd) as [L HL].
  exists L. split; [exact HL | split].
  - exact (potrf_chol_factor _ 1 K_y L Hsq HL).
  - exact (potrf_factorises _ 1 K_y L Hsq Hsym HL).
Qed.

Lemma log_lik_expr_split (L z : matrix) (N : nat) :
  log_lik_expr L z N
  = - (1 / 2) * Rsum (map (fun d => ln (Rabs d)) (diag L))
    - (1 / 2) * sq_norm (concat z)
    - INR N / 2 * ln (2 * PI).
Proof. unfold log_lik_expr, sq_norm. field. Qed.

Lemma twice_in_trace (c c0 c2 c3 c4 : call) :
  (2 <= times_called c [c0; c; c2; c3; c4; c])%nat.
Proof.
  unfold times_called. simpl.
  repeat match goal with
         | |- context [call_eq_dec ?a ?b] => destruct (call_eq_dec a b)
         end; try congruence; lia.
Qed.

(** ** Failure of the factorisation *)

Lemma gp_inference_not_square (obs_x obs_t x_new : list R) (l v : R)
  (noise : noise_spec) (m0 : R) (K_y : matrix) :
  noisy_cov obs_x l v noise = inr K_y -> is_square K_y = false ->
  gp_inference obs_x obs_t x_new (l, v, noise) m0
  = ([Cholesky K_y], inl (RuntimeError SizeMismatch)).
Proof.
  intros HK Hns. unfold gp_inference. rewrite HK. unfold lift. rewrite bind_ok.
  unfold torch_cholesky, record. rewrite Hns. reflexivity.
Qed.



Lemma single_cov_pos (x l v s : R) :
  0 < v -> 0 <= s -> 0 < rbf_of_dist l v (dist x x) + s * 1.
Proof. intros Hv Hs. pose proof (rbf_of_dist_pos l v (dist x x) Hv). lra. Qed.

Lemma times_called_same (c : call) (tr : list call) :
  times_called c (c :: tr) = S (times_called c tr).
Proof. unfold times_called. apply count_occ_cons_eq. reflexivity. Qed.

Lemma times_called_other (c c' : call) (tr : list call) :
  c' <> c -> times_called c (c' :: tr) = times_called c tr.
Proof. intros H. unfold times_called. apply count_occ_cons_neq. exact H. Qed.

(** Claim C1, as the code has it.  When [K_y] is symmetric positive-definite,
    [gp_inference] returns the log marginal likelihood
    [-1/2 * sum(log|diag(L)|) - 1/2 * ||z||^2 - (N/2) * log(2*pi)], where [L]
    is the lower Cholesky factor of [K_y] ([L L^T = K_y]) and [z] the
    forward-substitution solution of [L z = t] for the offset targets [t].
    [z] has the value of the intermediate result of the alpha computation,
    but it is computed again: the forward solve of [t] against [L] is the
    second and also the last library call of the run. *)
Theorem log_marginal_likelihood (obs_x obs_t x_new : list R) (l v : R)
  (noise : noise_spec) (m0 : R) (K_y : matrix) :
  length obs_t = length obs_x ->
  noisy_cov obs_x l v noise = inr K_y ->
  SPD K_y ->
  let N := length obs_x in
  let t := column (map (fun y => y - m0) obs_t) in
  let run := gp_inference obs_x obs_t x_new (l, v, noise) m0 in
  exists L : matrix,
    potrf N 1 K_y = inr L
    /\ matmul N L (transpose N L) = K_y
    /\ matmul 1 L (solve_lower N L t) = t
    /\ (exists mean cov,
          outcome run
          = inr (mean, cov,
                 - (1 / 2) * Rsum (map (fun d => ln (Rabs d)) (diag L))
                 - (1 / 2) * sq_norm (concat (solve_lower N L t))
                 - INR N / 2 * ln (2 * PI)))
    /\ (exists c3 c4 c5,
          trace_of run
          = [Cholesky K_y; Trtrs t L false; c3; c4; c5; Trtrs t L false])
    /\ (2 <= times_called (Trtrs t L false) (trace_of run))%nat.
Proof.
  intros Ht HK HSPD N t run.
  destruct (spd_factor obs_x l v noise K_y HK HSPD) as (Hsq & L & HL & HcL & HLLt).
  pose proof (gp_inference_run obs_x obs_t x_new l v noise m0 K_y L Ht HK Hsq HL)
    as Hrun. cbv zeta in Hrun. fold N t run in Hrun.
  exists L. split; [exact HL | split; [exact HLLt | split]].
  - apply solve_lower_correct; [exact HcL | | apply column_rows].
    unfold t. rewrite column_length, length_map. exact Ht.
  - rewrite Hrun. unfold outcome, trace_of. simpl fst. simpl snd.
    rewrite log_lik_expr_split. split; [|split].
    + eexists; eexists; reflexivity.
    + eexists; eexists; eexists; reflexivity.
    + apply twice_in_trace.
Qed.

Lemma log_marginal_likelihood_witness :
  exists L : matrix,
    potrf 1 1 [[rbf_of_dist 1 1 (dist 0 0) + 1 * 1]] = inr L
    /\ exists mean cov,
         outcome (gp_inference [0] [1] [0; 1] (1, 1, NoiseScalar 1) 0)
         = inr (mean, cov,
                - (1 / 2) * Rsum (map (fun d => ln (Rabs d)) (diag L))
                - (1 / 2) * sq_norm (concat (solve_lower 1 L [[1 - 0]]))
                - INR 1 / 2 * ln (2 * PI)).
Proof.
  destruct (log_marginal_likelihood [0] [1] [0; 1] 1 1 (NoiseScalar 1) 0
              [[rbf_of_dist 1 1 (dist 0 0) + 1 * 1]]
              eq_refl (noisy_cov_single 0 1 1 1)
              (spd_single _ (single_cov_pos 0 1 1 1 Rlt_0_1 Rle_0_1)))
    as (L & HL & _ & _ & Hout & _).
  exists L. split; [exact HL | exact Hout].
Defined.

(** Claim C1 as written fails: the forward solve of the targets is not
    reused by the likelihood but performed a second time; on one observation
    and two test points the call [trtrs(t, L, upper=False)] occurs twice in
    the run. *)
Lemma forward_solve_computed_twice :
  exists L : matrix,
    potrf 1 1 [[rbf_of_dist 1 1 (dist 0 0) + 1 * 1]] = inr L
    /\ times_called (Trtrs [[1 - 0]] L false)
         (trace_of (gp_inference [0] [1] [0; 1] (1, 1, NoiseScalar 1) 0)) = 2%nat.
Proof.
  pose proof (single_cov_pos 0 1 1 1 Rlt_0_1 Rle_0_1) as Hpos.
  destruct (spd_factor [0] 1 1 (NoiseScalar 1) _ (noisy_cov_single 0 1 1 1)
              (spd_single _ Hpos)) as (Hsq & L & HL & _ & _).
  exists L. split; [exact HL|].
  rewrite (gp_inference_run [0] [1] [0; 1] 1 1 (NoiseScalar 1) 0 _ L
             eq_refl (noisy_cov_single 0 1 1 1) Hsq HL).
  unfold trace_of. simpl fst.
  rewrite times_called_other by discriminate.
  rewrite times_called_same.
  rewrite times_called_other by discriminate.
  rewrite times_called_other
    by (cbv [rbf_kernel cdist unsqueeze column map]; discriminate).
  rewrite times_called_other by discriminate.
  rewrite times_called_same. reflexivity.
Qed.

(** Claim C2.  With the noise given as a number or as a vector of length N,
    [gp_inference] forms [K_y = K + diag(noise)]: the i-th diagonal entry of
    [K] grows by the scalar, respectively by the i-th entry of the vector,
    every off-diagonal entry is unchanged, and this [K_y] is what the
    Cholesky factorisation is called on. *)
Theorem noisy_covariance_adds_diagonal (obs_x : list R) (l v : R)
  (noise : noise_spec) :
  noise_fits (length obs_x) noise ->
  let N := length obs_x in
  let K := rbf_kernel obs_x obs_x l v in
  exists K_y : matrix,
    noisy_cov obs_x l v noise = inr K_y
    /\ square N K_y
    /\ (forall i : nat, (i < N)%nat ->
          entry K_y i i = entry K i i + noise_at noise i)
    /\ (forall i j : nat, (i < N)%nat -> (j < N)%nat -> i <> j ->
          entry K_y i j = entry K i j)
    /\ (forall (obs_t x_new : list R) (m0 : R),
          exists rest,
            trace_of (gp_inference obs_x obs_t x_new (l, v, noise) m0)
            = Cholesky K_y :: rest).
Proof.
  intros Hfit N K.
  destruct (noisy_cov_fits obs_x l v noise Hfit) as (K_y & HK & Hsq & Hent).
  exists K_y. split; [exact HK | split; [exact Hsq | split; [|split]]].
  - intros i Hi. rewrite Hent by assumption. rewrite Nat.eqb_refl.
    unfold K. ring.
  - intros i j Hi Hj Hne. rewrite Hent by assumption.
    rewrite (proj2 (Nat.eqb_neq i j) Hne). unfold K. ring.
  - intros obs_t x_new m0. apply gp_inference_reaches_cholesky. exact HK.
Qed.

Lemma noisy_covariance_adds_diagonal_witness :
  exists K_y : matrix,
    noisy_cov [0; 5; 10] 2 1 (NoiseVector [3; 4; 5]) = inr K_y
    /\ entry K_y 1 1 = entry (rbf_kernel [0; 5; 10] [0; 5; 10] 2 1) 1 1 + 4
    /\ entry K_y 2 0 = entry (rbf_kernel [0; 5; 10] [0; 5; 10] 2 1) 2 0.
Proof.
  destruct (noisy_covariance_adds_diagonal [0; 5; 10] 2 1 (NoiseVector [3; 4; 5])
              eq_refl) as (K_y & HK & _ & Hd & Ho & _).
  exists K_y. split; [exact HK | split].
  - exact (Hd 1%nat ltac:(simpl; lia)).
  - exact (Ho 2%nat 0%nat ltac:(simpl; lia) ltac:(simpl; lia) ltac:(lia)).
Defined.

(** Claim C4.  [gp_inference] subtracts the prior mean [m0] from the targets
    first, solves [L z = t] and [L^T alpha = z] for the offset targets [t]
    against the Cholesky factor [L] of [K_y], and returns the posterior mean
    [K*^T alpha + m0]: the prior mean is added back to every entry. *)
Theorem posterior_mean_offset (obs_x obs_t x_new : list R) (l v : R)
  (noise : noise_spec) (m0 : R) (K_y : matrix) :
  length obs_t = length obs_x ->
  noisy_cov obs_x l v noise = inr K_y ->
  SPD K_y ->
  let N := length obs_x in
  let t := column (map (fun y => y - m0) obs_t) in
  let K_obs_pred := rbf_kernel obs_x x_new l v in
  let run := gp_inference obs_x obs_t x_new (l, v, noise) m0 in
  exists L : matrix,
    potrf N 1 K_y = inr L
    /\ let z := solve_lower N L t in
       let alpha := solve_upper N (transpose N L) z in
       matmul 1 L z = t
       /\ matmul 1 (transpose N L) alpha = z
       /\ (exists rest,
             trace_of run
             = Cholesky K_y :: Trtrs t L false
               :: Trtrs z (transpose N L) true :: rest)
       /\ exists mean cov log_lik,
            outcome run = inr (mean, cov, log_lik)
            /\ mean = map (fun r => hd 0 r + m0)
                          (matmul 1 (transpose (length x_new) K_obs_pred) alpha)
            /\ length mean = length x_new
            /\ forall j : nat, (j < length x_new)%nat ->
                 nth j mean 0 = dot (col j K_obs_pred) (col 0 alpha) + m0.
Proof.
  intros Ht HK HSPD N t K_obs_pred run.
  destruct (spd_factor obs_x l v noise K_y HK HSPD) as (Hsq & L & HL & HcL & HLLt).
  pose proof (gp_inference_run obs_x obs_t x_new l v noise m0 K_y L Ht HK Hsq HL)
    as Hrun. cbv zeta in Hrun. fold N t K_obs_pred run in Hrun.
  assert (Hlt : length t = N).
  { unfold t. rewrite column_length, length_map. exact Ht. }
  pose proof (chol_factor_square N L HcL) as HsqL.
  exists L. split; [exact HL|]. intros z alpha.
  assert (Hz : Forall (fun b => length b = 1%nat) z)
    by (apply solve_lower_rows, column_rows).
  assert (Ha : Forall (fun b => length b = 1%nat) alpha)
    by (apply solve_upper_rows; exact Hz).
  split; [|split; [|split]].
  - apply solve_lower_correct; [exact HcL | exact Hlt | apply column_rows].
  - apply solve_upper_correct; [exact HcL | | exact Hz].
    apply solve_lower_length; assumption.
  - rewrite Hrun. unfold trace_of. simpl fst. eexists. reflexivity.
  - rewrite Hrun. unfold outcome. simpl snd.
    eexists; eexists; eexists. split; [reflexivity|]. fold z alpha.
    split; [reflexivity | split].
    + unfold matmul. rewrite !length_map.
      apply transpose_length. apply rbf_kernel_rows.
    + intros j Hj. apply posterior_mean_entry; [apply rbf_kernel_rows | exact Ha | exact Hj].
Qed.

Lemma posterior_mean_offset_witness :
  exists L mean cov log_lik,
    potrf 1 1 [[rbf_of_dist 2 1 (dist 5 5) + 1 * 1]] = inr L
    /\ outcome (gp_inference [5] [1] [5; 1000] (2, 1, NoiseScalar 1) 3)
       = inr (mean, cov, log_lik)
    /\ nth 1 mean 0
       = dot (col 1 (rbf_kernel [5] [5; 1000] 2 1))
             (col 0 (solve_upper 1 (transpose 1 L) (solve_lower 1 L [[1 - 3]])))
         + 3.
Proof.
  destruct (posterior_mean_offset [5] [1] [5; 1000] 2 1 (NoiseScalar 1) 3
              [[rbf_of_dist 2 1 (dist 5 5) + 1 * 1]]
              eq_refl (noisy_cov_single 5 2 1 1)
              (spd_single _ (single_cov_pos 5 2 1 1 Rlt_0_1 Rle_0_1)))
    as (L & HL & _ & _ & _ & mean & cov & ll & Hout & _ & _ & Hent).
  exists L, mean, cov, ll. split; [exact HL | split; [exact Hout|]].
  exact (Hent 1%nat ltac:(simpl; lia)).
Defined.

Lemma negative_pivot_fails (a : R) :
  a <= 0 -> potrf 1 1 [[a]] = inl (RuntimeError (NotPositiveDefinite 1)).
Proof. intros Ha. simpl. destruct (Rlt_dec 0 a); [lra | reflexivity]. Qed.

Lemma single_cov_negative :
  rbf_of_dist 1 1 (dist 0 0) + -2 * 1 <= 0.
Proof.
  unfold rbf_of_dist.
  assert (H : exp (- dist 0 0 ^ 2 / (2 * 1 ^ 2)) <= 1).
  { rewrite <- exp_0 at 2. left. apply exp_increasing.
    rewrite dist_sq. assert (0 < Rmax ((0 - 0) ^ 2) clamp_floor).
    { eapply Rlt_le_trans; [apply clamp_floor_pos | apply Rmax_r]. }
    lra. }
  lra.
Qed.

(** Claim C6, as the code has it.  [gp_inference] makes no test of its own
    on [K_y]: it hands [K_y] to [torch.cholesky].  When that call raises,
    [gp_inference] ends there, with the Cholesky call as its first and only
    library call, with the exception of [torch.cholesky] unchanged, and
    without a result.  The exception is a [RuntimeError], which names the
    order of the leading minor whose pivot is not positive (or reports a
    matrix that is not square); the notebook has no
    [NumericalInstabilityError].  This is what happens whenever the first
    diagonal entry [K_y[0,0]] is not positive.  When the call returns a
    factor, [gp_inference] goes on to the first triangular solve. *)
Theorem cholesky_failure_propagates (obs_x obs_t x_new : list R) (l v : R)
  (noise : noise_spec) (m0 : R) (K_y : matrix) :
  noisy_cov obs_x l v noise = inr K_y ->
  let run := gp_inference obs_x obs_t x_new (l, v, noise) m0 in
  (forall e : exn,
     outcome (torch_cholesky K_y) = inl e ->
     run = ([Cholesky K_y], inl e)
     /\ exn_class e = "RuntimeError"%string
     /\ (e = RuntimeError SizeMismatch
         \/ exists k : nat,
              (1 <= k <= length K_y)%nat /\ e = RuntimeError (NotPositiveDefinite k)))
  /\ (noise_fits (length obs_x) noise -> obs_x <> [] -> entry K_y 0 0 <= 0 ->
      run = ([Cholesky K_y], inl (RuntimeError (NotPositiveDefinite 1))))
  /\ (forall L : matrix,
        outcome (torch_cholesky K_y) = inr L ->
        exists rest,
          trace_of run
          = Cholesky K_y
            :: Trtrs (column (map (fun y => y - m0) obs_t)) L false :: rest).
Proof.
  intros HK run. unfold run, gp_inference. rewrite HK. unfold lift. rewrite bind_ok.
  unfold torch_cholesky, record, outcome. cbn [fst snd].
  split; [|split].
  - intros e He. rewrite He. rewrite bind_raise. cbn [app].
    split; [reflexivity | split; [destruct e; reflexivity|]].
    destruct (is_square K_y).
    + destruct (potrf_failure _ _ _ _ He) as (j & Hj & ->).
      right. exists j. split; [lia | reflexivity].
    + injection He as <-. left. reflexivity.
  - intros Hfit Hne Hpiv.
    pose proof (noisy_cov_fits obs_x l v noise Hfit) as (K' & HK' & Hsq & _).
    rewrite HK in HK'. injection HK' as <-.
    rewrite (is_square_true _ K_y Hsq).
    destruct Hsq as [Hlen Hrows]. rewrite Hlen.
    destruct obs_x as [|x0 obs_x']; [contradiction Hne; reflexivity|].
    destruct K_y as [|r0 below]; [discriminate Hlen|].
    destruct r0 as [|a r0].
    { inversion Hrows as [|? ? Hr0 ?]. discriminate Hr0. }
    unfold entry in Hpiv. cbn [nth] in Hpiv.
    cbn [length potrf]. destruct (Rlt_dec 0 a) as [Hpos|_]; [lra|].
    rewrite bind_raise. reflexivity.
  - intros L HL. rewrite HL. rewrite bind_ok.
    unfold torch_trtrs, record.
    unfold trace_of.
    match goal with
    | |- context [bind (?t, ?r) ?f] => destruct r as [e|z]
    end.
    + rewrite bind_raise. cbn [fst app]. eexists. reflexivity.
    + rewrite bind_ok. cbn [fst app]. eexists. reflexivity.
Qed.

Lemma cholesky_failure_propagates_witness :
  noisy_cov [0] 1 1 (NoiseScalar (-2)) = inr [[rbf_of_dist 1 1 (dist 0 0) + -2 * 1]]
  /\ gp_inference [0] [0] [0] (1, 1, NoiseScalar (-2)) 0
     = ([Cholesky [[rbf_of_dist 1 1 (dist 0 0) + -2 * 1]]],
        inl (RuntimeError (NotPositiveDefinite 1))).
Proof.
  split; [exact (noisy_cov_single 0 1 1 (-2))|].
  exact (proj1 (proj2 (cholesky_failure_propagates [0] [0] [0] 1 1 (NoiseScalar (-2)) 0
                         [[rbf_of_dist 1 1 (dist 0 0) + -2 * 1]]
                         (noisy_cov_single 0 1 1 (-2))))
           I ltac:(discriminate) single_cov_negative).
Defined.

(** Claim C6 as written fails: with one observation and noise [-2] the
    covariance is not positive definite and the exception raised is a
    [RuntimeError], not a [NumericalInstabilityError]. *)
Lemma cholesky_failure_is_runtime_error :
  ~ SPD [[rbf_of_dist 1 1 (dist 0 0) + -2 * 1]]
  /\ noisy_cov [0] 1 1 (NoiseScalar (-2))
     = inr [[rbf_of_dist 1 1 (dist 0 0) + -2 * 1]]
  /\ outcome (gp_inference [0] [0] [0] (1, 1, NoiseScalar (-2)) 0)
     = inl (RuntimeError (NotPositiveDefinite 1))
  /\ exn_class (RuntimeError (NotPositiveDefinite 1))
     <> "NumericalInstabilityError"%string.
Proof.
  split; [exact (not_spd_single _ single_cov_negative) | split; [reflexivity | split]].
  - rewrite (gp_inference_cholesky_fails [0] [0] [0] 1 1 (NoiseScalar (-2)) 0 _
               (RuntimeError (NotPositiveDefinite 1)) (noisy_cov_single 0 1 1 (-2))).
    + reflexivity.
    + split; [reflexivity | repeat constructor].
    + apply negative_pivot_fails, single_cov_negative.
  - discriminate.
Qed.




(** ** The Dirichlet transform *)

Lemma transf_var_entry (alpha : R) (Y : matrix) (i c : nat) :
  (i < length Y)%nat -> (c < length (nth i Y []))%nat ->
  entry (transf_var alpha Y) i c = ln (/ (entry Y i c + alpha) + 1).
Proof. intros Hi Hc. unfold transf_var. apply entry_map_map; assumption. Qed.

Lemma transf_var_shape (alpha : R) (Y : matrix) (i : nat) :
  length (transf_var alpha Y) = length Y
  /\ length (nth i (transf_var alpha Y) []) = length (nth i Y []).
Proof.
  unfold transf_var. split; [apply length_map|].
  change (@nil R) with (map (fun y => ln (/ (y + alpha) + 1)) []) at 1.
  rewrite map_nth. apply length_map.
Qed.

Lemma transf_mean_entry (alpha : R) (Y : matrix) (i c : nat) :
  (i < length Y)%nat -> (c < length (nth i Y []))%nat ->
  entry (transf_mean alpha Y) i c
  = ln (entry Y i c + alpha) - entry (transf_var alpha Y) i c / 2.
Proof.
  intros Hi Hc. destruct (transf_var_shape alpha Y i) as [Hvl Hvr].
  assert (Hi' : (i < length (transf_var alpha Y))%nat) by (rewrite Hvl; exact Hi).
  assert (Hc' : (c < length (nth i (transf_var alpha Y) []))%nat)
    by (rewrite Hvr; exact Hc).
  rewrite <- (entry_map_map (fun y => ln (y + alpha)) Y i c Hi Hc).
  rewrite <- (entry_map_map (fun s => s / 2) (transf_var alpha Y) i c Hi' Hc').
  unfold transf_mean, entry.
  rewrite (nth_zip_with (zip_with Rminus) _ _ i [] [] [])
    by (rewrite !length_map; assumption).
  apply nth_zip_with.
  - rewrite (nth_map_in _ Y i [] []) by exact Hi. rewrite length_map. exact Hc.
  - rewrite (nth_map_in _ (transf_var alpha Y) i [] []) by exact Hi'.
    rewrite length_map. exact Hc'.
Qed.

Lemma col_length (c : nat) (A : matrix) : length (col c A) = length A.
Proof. apply length_map. Qed.

Lemma col_nth (c : nat) (A : matrix) (i : nat) :
  (i < length A)%nat -> nth i (col c A) 0 = entry A i c.
Proof.
  intros Hi. unfold col, entry.
  apply (nth_map_in (fun r => nth c r 0) A i [] 0). exact Hi.
Qed.

(** Claim C8.  The Dirichlet transform works entry by entry, each class
    (column) on its own: [transformedVariance = log((Y + alpha)^(-1) + 1)]
    and [transformedMean = log(Y + alpha) - transformedVariance / 2], with
    [alpha = 0.05] in the notebook.  For class [c], column [c] of the
    variance is the per-point noise added to the diagonal of [K] and column
    [c] of the mean is the target vector of one call of [gp_inference]; the
    objective runs one such call per class. *)
Theorem dirichlet_transform_spec (alpha : R) (Y : matrix) :
  alpha_default = 0.05
  /\ (forall i c : nat, (i < length Y)%nat -> (c < length (nth i Y []))%nat ->
        entry (transf_var alpha Y) i c = ln (/ (entry Y i c + alpha) + 1)
        /\ entry (transf_mean alpha Y) i c
           = ln (entry Y i c + alpha) - entry (transf_var alpha Y) i c / 2)
  /\ (forall (obs_x test_x : list R) (l v : R) (c : nat) (m0 : R),
        class_inference obs_x Y test_x alpha l v c m0
        = gp_inference obs_x (col c (transf_mean alpha Y)) test_x
                       (l, v, NoiseVector (col c (transf_var alpha Y))) m0)
  /\ (forall (obs_x : list R) (l v : R) (c : nat),
        length Y = length obs_x ->
        exists K_y,
          noisy_cov obs_x l v (NoiseVector (col c (transf_var alpha Y))) = inr K_y
          /\ forall i : nat, (i < length obs_x)%nat ->
               entry K_y i i
               = entry (rbf_kernel obs_x obs_x l v) i i
                 + entry (transf_var alpha Y) i c
               /\ nth i (col c (transf_mean alpha Y)) 0
                  = entry (transf_mean alpha Y) i c)
  /\ (forall (obs_x test_x : list R) (l v : R) r0 r1,
        outcome (class_inference obs_x Y test_x alpha l v 0 0) = inr r0 ->
        outcome (class_inference obs_x Y test_x alpha l v 1 0) = inr r1 ->
        dirichlet_nlog_lik obs_x Y test_x alpha l v
        = (trace_of (class_inference obs_x Y test_x alpha l v 0 0)
           ++ trace_of (class_inference obs_x Y test_x alpha l v 1 0),
           inr (- snd r0 - snd r1))).
Proof.
  split; [unfold alpha_default; lra | split; [|split; [|split]]].
  - intros i c Hi Hc. split; [apply transf_var_entry | apply transf_mean_entry];
      assumption.
  - reflexivity.
  - intros obs_x l v c HY.
    assert (Hfit : noise_fits (length obs_x) (NoiseVector (col c (transf_var alpha Y)))).
    { simpl. rewrite col_length. unfold transf_var. rewrite length_map. exact HY. }
    destruct (noisy_cov_fits obs_x l v _ Hfit) as (K_y & HK & _ & Hent).
    exists K_y. split; [exact HK|]. intros i Hi. split.
    + rewrite Hent by assumption. rewrite Nat.eqb_refl. simpl noise_at.
      rewrite col_nth by (unfold transf_var; rewrite length_map; lia). ring.
    + apply col_nth. unfold transf_mean. rewrite zip_with_length, !length_map.
      unfold transf_var. rewrite length_map. lia.
  - intros obs_x test_x l v r0 r1 H0 H1. unfold dirichlet_nlog_lik.
    destruct (class_inference obs_x Y test_x alpha l v 0 0) as [t0 o0].
    destruct (class_inference obs_x Y test_x alpha l v 1 0) as [t1 o1].
    unfold outcome, trace_of in *. simpl in *. subst. rewrite app_nil_r. reflexivity.
Qed.

Lemma dirichlet_transform_spec_witness :
  entry (transf_var alpha_default [[1; 0]; [0; 1]]) 0 1
  = ln (/ (entry [[1; 0]; [0; 1]] 0 1 + alpha_default) + 1)
  /\ entry (transf_mean alpha_default [[1; 0]; [0; 1]]) 0 1
     = ln (entry [[1; 0]; [0; 1]] 0 1 + alpha_default)
       - entry (transf_var alpha_default [[1; 0]; [0; 1]]) 0 1 / 2.
Proof.
  exact (proj1 (proj2 (dirichlet_transform_spec alpha_default [[1; 0]; [0; 1]]))
           0%nat 1%nat ltac:(simpl; lia) ltac:(simpl; lia)).
Defined.

(** ** The training loop *)

Lemma training_step_ok (obs_x obs_t : list R) (backward : hyper -> hyper)
  (st : loop_state) (value : R) :
  nlog_lik_at obs_x obs_t (ls_params st) = inr value ->
  exists st',
    training_step obs_x obs_t backward st = inr st'
    /\ (ls_params st', ls_buffer st') = advance backward (ls_params st, ls_buffer st)
    /\ nlog_lik_steps st' = nlog_lik_steps st ++ [value].
Proof.
  intros H. unfold training_step. rewrite H.
  destruct (advance backward (ls_params st, ls_buffer st)) as [p' b'].
  eexists. split; [reflexivity | split; reflexivity].
Qed.

(** A run from any state: one likelihood value is appended per iteration. *)
Lemma training_loop_run (obs_x obs_t : list R) (backward : hyper -> hyper)
  (steps : nat) (st : loop_state) :
  (forall i : nat, (i < steps)%nat ->
     exists value,
       nlog_lik_at obs_x obs_t
         (fst (optimizer_at backward i (ls_params st, ls_buffer st))) = inr value) ->
  exists final values,
    training_loop obs_x obs_t backward steps st = inr final
    /\ length values = steps
    /\ nlog_lik_steps final = nlog_lik_steps st ++ values
    /\ (forall i : nat, (i < steps)%nat ->
          nlog_lik_at obs_x obs_t
            (fst (optimizer_at backward i (ls_params st, ls_buffer st)))
          = inr (nth i values 0))
    /\ (ls_params final, ls_buffer final)
       = optimizer_at backward steps (ls_params st, ls_buffer st)
    /\ (forall k : nat, (k <= steps)%nat ->
          exists st_k,
            training_loop obs_x obs_t backward k st = inr st_k
            /\ nlog_lik_steps st_k = nlog_lik_steps st ++ firstn k values).
Proof.
  revert st. induction steps as [|steps IH]; intros st H.
  - exists st, []. repeat split.
    + rewrite app_nil_r. reflexivity.
    + intros i Hi. lia.
    + intros k Hk. replace k with 0%nat by lia. exists st.
      split; [reflexivity | rewrite app_nil_r; reflexivity].
  - destruct (H 0%nat ltac:(lia)) as [v0 Hv0]. simpl in Hv0.
    destruct (training_step_ok obs_x obs_t backward st v0 Hv0)
      as (st1 & Hst1 & Hadv & Htr1).
    assert (H1 : forall i : nat, (i < steps)%nat ->
              exists value,
                nlog_lik_at obs_x obs_t
                  (fst (optimizer_at backward i (ls_params st1, ls_buffer st1)))
                = inr value).
    { intros i Hi. rewrite Hadv. apply (H (S i)). lia. }
    destruct (IH st1 H1) as (final & values & Hrun & Hlen & Htr & Hval & Hfin & Hpre).
    exists final, (v0 :: values). repeat split.
    + simpl. rewrite Hst1. exact Hrun.
    + simpl. rewrite Hlen. reflexivity.
    + rewrite Htr, Htr1, <- app_assoc. reflexivity.
    + intros [|i] Hi; [exact Hv0|]. simpl nth.
      rewrite <- (Hval i ltac:(lia)). rewrite Hadv. reflexivity.
    + rewrite Hfin, Hadv. reflexivity.
    + intros [|k] Hk.
      * exists st. split; [reflexivity | rewrite app_nil_r; reflexivity].
      * destruct (Hpre k ltac:(lia)) as (st_k & Hk1 & Hk2).
        exists st_k. split.
        -- simpl. rewrite Hst1. exact Hk1.
        -- rewrite Hk2, Htr1, <- app_assoc. reflexivity.
Qed.

(** What [nlog_lik_at] returns is the negated third component of the
    result of [gp_inference] at the exponentiated parameters. *)
Lemma nlog_lik_at_returns (obs_x obs_t : list R) (p : hyper) (value : R) :
  nlog_lik_at obs_x obs_t p = inr value
  <-> exists (mean : list R) (cov : matrix) (log_lik : R),
        outcome (gp_inference obs_x obs_t [-30]
                   (exp (logl p), exp (logsigmaf p), NoiseScalar (exp (logsigman p))) 0)
        = inr (mean, cov, log_lik)
        /\ value = - log_lik.
Proof.
  unfold nlog_lik_at, constrained, scan_point.
  destruct (outcome (gp_inference obs_x obs_t [-30] _ 0)) as [e|[[mean cov] ll]].
  - split; [discriminate | intros (m & c & g & H & _); discriminate H].
  - split.
    + intros H. injection H as <-. exists mean, cov, ll. split; reflexivity.
    + intros (m & c & g & H & ->). injection H as _ _ <-. reflexivity.
Qed.

Lemma optimizer_at_succ (backward : hyper -> hyper) (i : nat)
  (ph : hyper * option hyper) :
  optimizer_at backward (S i) ph = advance backward (optimizer_at backward i ph).
Proof.
  revert ph. induction i as [|i IH]; intros ph; [reflexivity|].
  change (optimizer_at backward (S (S i)) ph)
    with (optimizer_at backward (S i) (advance backward ph)).
  rewrite IH. reflexivity.
Qed.

(** Claim C9.  A run with step budget [steps] on which every call of
    [gp_inference] returns executes exactly [steps] iterations and stops;
    there is no convergence test.  From the empty trace the run leaves
    exactly [steps] entries; the i-th is [- log_lik], the negated log
    marginal likelihood that [gp_inference] returns for the training set at
    the parameters [exp(logl), exp(logsigmaf), exp(logsigman)] of iteration
    i.  Those parameters start at [(2, -2, -2)] with no momentum buffer and
    move by one [optimizer.step()] per iteration.  The trace after the first
    k iterations is the first k entries of the final one: entries are only
    appended. *)
Theorem training_loop_trace (obs_x obs_t : list R) (backward : hyper -> hyper)
  (steps : nat) :
  let start := ({| logl := 2; logsigmaf := -2; logsigman := -2 |}, @None hyper) in
  let params_at := fun i : nat => fst (optimizer_at backward i start) in
  let inference_at := fun i : nat =>
    gp_inference obs_x obs_t [-30]
      (exp (logl (params_at i)), exp (logsigmaf (params_at i)),
       NoiseScalar (exp (logsigman (params_at i)))) 0 in
  (forall i : nat, (i < steps)%nat ->
     exists result, outcome (inference_at i) = inr result) ->
  exists final : loop_state,
    training_loop obs_x obs_t backward steps initial_state = inr final
    /\ length (nlog_lik_steps final) = steps
    /\ (forall i : nat, (i < steps)%nat ->
          exists (mean : list R) (cov : matrix) (log_lik : R),
            outcome (inference_at i) = inr (mean, cov, log_lik)
            /\ nth i (nlog_lik_steps final) 0 = - log_lik)
    /\ (ls_params final, ls_buffer final) = optimizer_at backward steps start
    /\ optimizer_at backward 0 start = start
    /\ (forall i : nat,
          let p := fst (optimizer_at backward i start) in
          let buf := snd (optimizer_at backward i start) in
          optimizer_at backward (S i) start
          = (fst (sgd_step p (backward p) buf), Some (snd (sgd_step p (backward p) buf))))
    /\ (forall k : nat, (k <= steps)%nat ->
          exists st_k,
            training_loop obs_x obs_t backward k initial_state = inr st_k
            /\ nlog_lik_steps st_k = firstn k (nlog_lik_steps final)).
Proof.
  intros start params_at inference_at H.
  assert (Hret : forall i : nat, (i < steps)%nat ->
            exists value,
              nlog_lik_at obs_x obs_t
                (fst (optimizer_at backward i
                        (ls_params initial_state, ls_buffer initial_state)))
              = inr value).
  { intros i Hi. destruct (H i Hi) as [[[mean cov] ll] Hout].
    exists (- ll). apply nlog_lik_at_returns.
    exists mean, cov, ll. split; [exact Hout | reflexivity]. }
  destruct (training_loop_run obs_x obs_t backward steps initial_state Hret)
    as (final & values & Hrun & Hlen & Htr & Hval & Hfin & Hpre).
  simpl in Htr. exists final. rewrite Htr.
  split; [exact Hrun | split; [exact Hlen | split; [|split; [exact Hfin|split; [|split]]]]].
  - intros i Hi. apply nlog_lik_at_returns. exact (Hval i Hi).
  - reflexivity.
  - intros i p buf. rewrite optimizer_at_succ. unfold advance. fold p buf.
    destruct (sgd_step p (backward p) buf) as [p' b']. reflexivity.
  - intros k Hk. destruct (Hpre k Hk) as (st_k & Hk1 & Hk2).
    exists st_k. split; [exact Hk1 | exact Hk2].
Qed.

Lemma gp_inference_single_returns (x t : R) (x_new : list R) (l v s m0 : R) :
  0 < v -> 0 <= s ->
  exists result,
    outcome (gp_inference [x] [t] x_new (l, v, NoiseScalar s) m0) = inr result.
Proof.
  intros Hv Hs.
  pose proof (single_cov_pos x l v s Hv Hs) as Hpos.
  destruct (spd_factor [x] l v (NoiseScalar s) _
              (noisy_cov_single x l v s) (spd_single _ Hpos)) as (Hsq & L & HL & _ & _).
  rewrite (gp_inference_run [x] [t] x_new l v (NoiseScalar s) m0 _ L
             eq_refl (noisy_cov_single x l v s) Hsq HL).
  eexists. reflexivity.
Qed.

Lemma training_loop_trace_witness :
  exists (final : loop_state) (mean : list R) (cov : matrix) (log_lik : R),
    training_loop [0] [1] (fun _ => mk_hyper 0 0 0) 3 initial_state = inr final
    /\ length (nlog_lik_steps final) = 3%nat
    /\ outcome (gp_inference [0] [1] [-30]
                  (exp 2, exp (-2), NoiseScalar (exp (-2))) 0)
       = inr (mean, cov, log_lik)
    /\ nth 0 (nlog_lik_steps final) 0 = - log_lik.
Proof.
  destruct (training_loop_trace [0] [1] (fun _ => mk_hyper 0 0 0) 3
              (fun i _ => gp_inference_single_returns 0 1 [-30] _ _ _ 0
                            (exp_pos _) (Rlt_le _ _ (exp_pos _))))
    as (final & Hrun & Hlen & Hval & _).
  destruct (Hval 0%nat ltac:(lia)) as (mean & cov & ll & Hout & Hnth).
  exists final, mean, cov, ll.
  split; [exact Hrun | split; [exact Hlen | split; [exact Hout | exact Hnth]]].
Defined.

(** * Further properties of the code *)

(** ** Runs of [gp_inference], case by case *)

Lemma rbf_kernel_closed (x1 x2 : list R) (l v : R) :
  rbf_kernel x1 x2 l v
  = map (fun a => map (fun b => rbf_of_dist l v (dist a b)) x2) x1.
Proof.
  unfold rbf_kernel, cdist, unsqueeze. rewrite !map_map.
  apply map_ext. intros a. rewrite !map_map. reflexivity.
Qed.


Lemma gp_inference_noise_mismatch (obs_x obs_t x_new : list R) (l v : R)
  (noise : noise_spec) (m0 : R) (e : exn) :
  noisy_cov obs_x l v noise = inl e ->
  gp_inference obs_x obs_t x_new (l, v, noise) m0 = ([], inl e).
Proof. intros HK. unfold gp_inference. rewrite HK. reflexivity. Qed.

Lemma gp_inference_targets_mismatch (obs_x obs_t x_new : list R) (l v : R)
  (noise : noise_spec) (m0 : R) (K_y L : matrix) :
  noisy_cov obs_x l v noise = inr K_y ->
  square (length obs_x) K_y ->
  potrf (length obs_x) 1 K_y = inr L ->
  length obs_t <> length obs_x ->
  gp_inference obs_x obs_t x_new (l, v, noise) m0
  = ([Cholesky K_y; Trtrs (column (map (fun y => y - m0) obs_t)) L false],
     inl (RuntimeError SizeMismatch)).
Proof.
  intros HK Hsq HL Hne.
  pose proof (potrf_chol_factor _ 1 K_y L Hsq HL) as HcL.
  pose proof (chol_factor_square _ L HcL) as HsqL.
  unfold gp_inference. rewrite HK. unfold lift. rewrite bind_ok.
  rewrite (torch_cholesky_run _ K_y Hsq), HL. rewrite bind_ok.
  unfold torch_trtrs, record. rewrite (is_square_true _ L HsqL).
  destruct HsqL as [HlL _]. rewrite column_length, length_map, HlL.
  rewrite (proj2 (Nat.eqb_neq _ _) Hne). reflexivity.
Qed.

Lemma eye_rows_scale (s : R) (N : nat) :
  map (zip_with Rmult (repeat s N)) (eye N) = map (map (Rmult s)) (eye N).
Proof.
  pose proof (eye_square N) as [_ Hr]. induction Hr as [|r E Hrl _ IH]; [reflexivity|].
  simpl. f_equal; [|exact IH]. clear IH. revert r Hrl.
  induction N as [|N IHN]; intros [|a r] H; simpl in *; try discriminate; try reflexivity.
  f_equal. apply IHN. lia.
Qed.

(** X6.  A scalar noise gives the run of the constant noise vector of
    length N: homoskedastic inference is the heteroskedastic one with equal
    per-point noise. *)
Theorem scalar_noise_is_constant_vector (obs_x obs_t x_new : list R) (l v s m0 : R) :
  gp_inference obs_x obs_t x_new (l, v, NoiseVector (repeat s (length obs_x))) m0
  = gp_inference obs_x obs_t x_new (l, v, NoiseScalar s) m0.
Proof.
  assert (H : noisy_cov obs_x l v (NoiseVector (repeat s (length obs_x)))
              = noisy_cov obs_x l v (NoiseScalar s)).
  { unfold noisy_cov, noise_times_eye. rewrite repeat_length, Nat.eqb_refl.
    rewrite eye_rows_scale. reflexivity. }
  unfold gp_inference. rewrite H. reflexivity.
Qed.

(** X9.  A noise vector that is neither of length N nor of length 1, with
    N different from 1, cannot be broadcast against the N x N identity:
    [gp_inference] raises a size-mismatch [RuntimeError] before any
    factorisation or solve is called. *)
Theorem noise_length_mismatch_raises (obs_x obs_t x_new : list R) (l v : R)
  (w : list R) (m0 : R) :
  length w <> length obs_x -> length w <> 1%nat -> length obs_x <> 1%nat ->
  gp_inference obs_x obs_t x_new (l, v, NoiseVector w) m0
  = ([], inl (RuntimeError SizeMismatch)).
Proof.
  intros H1 H2 H3. apply gp_inference_noise_mismatch.
  unfold noisy_cov, noise_times_eye.
  rewrite (proj2 (Nat.eqb_neq _ _) H1), (proj2 (Nat.eqb_neq _ _) H2),
    (proj2 (Nat.eqb_neq _ _) H3). reflexivity.
Qed.

Lemma noise_length_mismatch_raises_witness :
  gp_inference [0; 5; 10] [0; 1; 0] [5] (2, 1, NoiseVector [1; 2]) 0
  = ([], inl (RuntimeError SizeMismatch)).
Proof.
  exact (noise_length_mismatch_raises [0; 5; 10] [0; 1; 0] [5] 2 1 [1; 2] 0
           ltac:(simpl; lia) ltac:(simpl; lia) ltac:(simpl; lia)).
Defined.

(** X10.  With a positive-definite [K_y] but a number of targets different
    from the number of observed inputs, nothing is checked up front: the
    factorisation runs, and the first triangular solve raises a
    size-mismatch [RuntimeError]. *)
Theorem target_length_mismatch_raises (obs_x obs_t x_new : list R) (l v : R)
  (noise : noise_spec) (m0 : R) (K_y : matrix) :
  noisy_cov obs_x l v noise = inr K_y -> SPD K_y ->
  length obs_t <> length obs_x ->
  exists L : matrix,
    potrf (length obs_x) 1 K_y = inr L
    /\ gp_inference obs_x obs_t x_new (l, v, noise) m0
       = ([Cholesky K_y; Trtrs (column (map (fun y => y - m0) obs_t)) L false],
          inl (RuntimeError SizeMismatch)).
Proof.
  intros HK HSPD Hne.
  destruct (spd_factor obs_x l v noise K_y HK HSPD) as (Hsq & L & HL & _ & _).
  exists L. split; [exact HL|].
  apply gp_inference_targets_mismatch; assumption.
Qed.

Lemma target_length_mismatch_raises_witness :
  exists L : matrix,
    potrf 1 1 [[rbf_of_dist 2 1 (dist 5 5) + 1 * 1]] = inr L
    /\ gp_inference [5] [1; 2] [7] (2, 1, NoiseScalar 1) 0
       = ([Cholesky [[rbf_of_dist 2 1 (dist 5 5) + 1 * 1]];
           Trtrs [[1 - 0]; [2 - 0]] L false],
          inl (RuntimeError SizeMismatch)).
Proof.
  exact (target_length_mismatch_raises [5] [1; 2] [7] 2 1 (NoiseScalar 1) 0
           [[rbf_of_dist 2 1 (dist 5 5) + 1 * 1]]
           (noisy_cov_single 5 2 1 1)
           (spd_single _ (single_cov_pos 5 2 1 1 Rlt_0_1 Rle_0_1))
           ltac:(simpl; lia)).
Defined.



(** X12.  The log marginal likelihood, or the exception raised in its
    place, does not depend on the test inputs: any [x_new], also none at
    all, gives the value the training data determine. *)
Theorem log_lik_ignores_test_inputs (obs_x obs_t x_new x_new' : list R) (l v : R)
  (noise : noise_spec) (m0 : R) :
  log_lik_of (gp_inference obs_x obs_t x_new (l, v, noise) m0)
  = log_lik_of (gp_inference obs_x obs_t x_new' (l, v, noise) m0).
Proof.
  destruct (noisy_cov obs_x l v noise) as [e|K_y] eqn:HK.
  - rewrite !(gp_inference_noise_mismatch _ _ _ _ _ _ _ e HK). reflexivity.
  - destruct (noisy_cov_shape obs_x l v noise K_y HK) as [[Hsq Hsym]|Hns].
    + destruct (potrf (length obs_x) 1 K_y) as [e|L] eqn:HL.
      * rewrite !(gp_inference_cholesky_fails _ _ _ _ _ _ _ K_y e HK Hsq HL).
        reflexivity.
      * destruct (Nat.eq_dec (length obs_t) (length obs_x)) as [Ht|Ht].
        -- rewrite !(gp_inference_run obs_x obs_t _ l v noise m0 K_y L Ht HK Hsq HL).
           reflexivity.
        -- rewrite !(gp_inference_targets_mismatch obs_x obs_t _ l v noise m0
                       K_y L HK Hsq HL Ht). reflexivity.
    + rewrite !(gp_inference_not_square _ _ _ _ _ _ _ K_y HK Hns). reflexivity.
Qed.

(** ** Products, columns and adjoints *)

Lemma dot_plus_l (u w x : list R) :
  length u = length w -> dot (zip_with Rplus u w) x = dot u x + dot w x.
Proof.
  revert w x. induction u as [|a u IH]; intros [|b w] [|c x] H; simpl in H;
    try discriminate; simpl zip_with; rewrite ?dot_nil_l, ?dot_nil_r; try ring.
  rewrite !dot_cons, IH by lia. ring.
Qed.

Lemma dot_scale (a : R) (b x : list R) : dot (map (Rmult a) b) x = a * dot b x.
Proof.
  revert x. induction b as [|c b IH]; intros [|y x]; simpl map;
    rewrite ?dot_nil_l, ?dot_nil_r; try ring.
  rewrite !dot_cons, IH. ring.
Qed.

Lemma dot_row_comb (n : nat) (r : list R) (B : matrix) (x : list R) :
  Forall (fun b => length b = n) B ->
  dot (row_comb n r B) x = dot r (mat_vec B x).
Proof.
  intros HB. revert r. induction HB as [|b B Hb HB IH]; intros [|a r]; simpl;
    rewrite ?dot_zeros_l, ?dot_nil_l, ?dot_nil_r; try reflexivity.
  rewrite dot_plus_l by (rewrite length_map, row_comb_length by exact HB; exact Hb).
  rewrite dot_scale, IH, dot_cons. reflexivity.
Qed.

Lemma mat_vec_matmul (n : nat) (A B : matrix) (x : list R) :
  Forall (fun b => length b = n) B ->
  mat_vec (matmul n A B) x = mat_vec A (mat_vec B x).
Proof.
  intros HB. unfold mat_vec at 1 2, matmul. rewrite map_map.
  apply map_ext. intros r. apply dot_row_comb. exact HB.
Qed.

Lemma matmul_single_column (A X : matrix) :
  Forall (fun b => length b = 1%nat) X ->
  matmul 1 A X = column (mat_vec A (col 0 X)).
Proof.
  intros HX. unfold matmul, column, mat_vec. rewrite map_map.
  apply map_ext. intros r. apply row_comb_single. exact HX.
Qed.

Lemma col0_column (u : list R) : col 0 (column u) = u.
Proof. unfold col, column. rewrite map_map. simpl. apply map_id. Qed.

Lemma nth_row_comb (m : nat) (r : list R) (B : matrix) (j : nat) :
  Forall (fun b => length b = m) B -> (j < m)%nat ->
  nth j (row_comb m r B) 0 = dot r (col j B).
Proof.
  intros HB Hj. revert r. induction HB as [|b B Hb HB IH]; intros [|a r]; simpl;
    rewrite ?nth_repeat, ?dot_nil_l, ?dot_nil_r; try reflexivity.
  rewrite (nth_zip_with Rplus _ _ j 0 0 0)
    by (rewrite ?length_map, ?row_comb_length by exact HB; lia).
  rewrite (nth_map_in (Rmult a) b j 0 0) by lia.
  rewrite IH, dot_cons. reflexivity.
Qed.

Lemma col_matmul (m : nat) (A B : matrix) (j : nat) :
  Forall (fun b => length b = m) B -> (j < m)%nat ->
  col j (matmul m A B) = mat_vec A (col j B).
Proof.
  intros HB Hj. unfold col at 1, matmul, mat_vec. rewrite map_map.
  apply map_ext. intros r. apply nth_row_comb; assumption.
Qed.

Lemma mat_vec_no_columns (n : nat) (y : list R) :
  mat_vec (repeat [] n) y = repeat 0 n.
Proof. induction n as [|n IH]; [reflexivity|]. simpl. f_equal. exact IH. Qed.

(** [(A x) . y = x . (A^T y)] *)
Lemma dot_adjoint (n : nat) (A : matrix) (x y : list R) :
  Forall (fun r => length r = n) A ->
  dot (mat_vec A x) y = dot x (mat_vec (transpose n A) y).
Proof.
  intros HA. revert y. induction HA as [|r A Hr HA IH]; intros y.
  - simpl. rewrite mat_vec_no_columns, dot_zeros_r. reflexivity.
  - destruct y as [|y0 y].
    + simpl mat_vec at 1. rewrite dot_nil_r.
      assert (H0 : mat_vec (transpose n (r :: A)) [] = repeat 0 n).
      { unfold mat_vec. 
        assert (Hl : length (transpose n (r :: A)) = n)
          by (apply transpose_length; constructor; assumption).
        revert Hl. generalize (transpose n (r :: A)). clear.
        intros T. revert n. induction T as [|t T IHT]; intros [|n] H; simpl in *;
          try discriminate; try reflexivity.
        rewrite dot_nil_r. f_equal. apply IHT. lia. }
      rewrite H0, dot_zeros_r. reflexivity.
    + simpl transpose. rewrite mat_vec_bordered.
      rewrite dot_zip_affine
        by (rewrite mat_vec_length, transpose_length by exact HA; exact Hr).
      simpl mat_vec at 1. rewrite dot_cons, IH. rewrite (dot_comm x r). ring.
Qed.

Lemma entry_mat_sub (n : nat) (A B : matrix) (i j : nat) :
  square n A -> square n B -> (i < n)%nat -> (j < n)%nat ->
  entry (mat_sub A B) i j = entry A i j - entry B i j.
Proof.
  intros HA HB Hi Hj. unfold mat_sub, entry.
  rewrite (nth_zip_with (zip_with Rminus) A B i [] [] []) by (destruct HA, HB; lia).
  apply nth_zip_with.
  - rewrite (square_row_length n A i HA Hi). exact Hj.
  - rewrite (square_row_length n B i HB Hi). exact Hj.
Qed.

Lemma entry_matmul (m : nat) (A B : matrix) (i j : nat) :
  Forall (fun b => length b = m) B -> (i < length A)%nat -> (j < m)%nat ->
  entry (matmul m A B) i j = dot (nth i A []) (col j B).
Proof.
  intros HB Hi Hj. unfold entry, matmul.
  rewrite (nth_map_in (fun r => row_comb m r B) A i [] []) by exact Hi.
  apply nth_row_comb; assumption.
Qed.

Lemma matmul_square (m : nat) (A B : matrix) :
  length A = m -> Forall (fun b => length b = m) B -> square m (matmul m A B).
Proof.
  intros HA HB. split; [unfold matmul; rewrite length_map; exact HA|].
  unfold matmul. apply Forall_map, Forall_forall. intros r _.
  apply row_comb_length. exact HB.
Qed.

(** ** What the posterior solves *)

(** X13.  When [K_y] is symmetric positive-definite, the vector [alpha]
    obtained from the two triangular solves is the solution of the linear
    system [K_y alpha = t] for the offset targets [t]; no inverse is formed,
    and the returned mean is [K*^T alpha + m0] with this [alpha]. *)
Theorem alpha_solves_normal_system (obs_x obs_t x_new : list R) (l v : R)
  (noise : noise_spec) (m0 : R) (K_y : matrix) :
  length obs_t = length obs_x ->
  noisy_cov obs_x l v noise = inr K_y ->
  SPD K_y ->
  let N := length obs_x in
  exists (L : matrix) (alpha : list R),
    potrf N 1 K_y = inr L
    /\ alpha = col 0 (solve_upper N (transpose N L)
                        (solve_lower N L (column (map (fun y => y - m0) obs_t))))
    /\ length alpha = N
    /\ mat_vec K_y alpha = map (fun y => y - m0) obs_t
    /\ exists mean cov log_lik,
         outcome (gp_inference obs_x obs_t x_new (l, v, noise) m0)
         = inr (mean, cov, log_lik)
         /\ forall j : nat, (j < length x_new)%nat ->
              nth j mean 0 = dot (col j (rbf_kernel obs_x x_new l v)) alpha + m0.
Proof.
  intros Ht HK HSPD N.
  destruct (spd_factor obs_x l v noise K_y HK HSPD) as (Hsq & L & HL & HcL & HLLt).
  fold N in Hsq, HL, HcL, HLLt.
  pose proof (chol_factor_square N L HcL) as HsqL.
  pose proof (transpose_square N L HsqL) as [HlU HrU].
  set (t := column (map (fun y => y - m0) obs_t)).
  assert (Hlt : length t = N).
  { unfold t. rewrite column_length, length_map. exact Ht. }
  set (z := solve_lower N L t).
  set (a := solve_upper N (transpose N L) z).
  assert (Hz : Forall (fun b => length b = 1%nat) z)
    by (apply solve_lower_rows, column_rows).
  assert (Ha : Forall (fun b => length b = 1%nat) a)
    by (apply solve_upper_rows; exact Hz).
  assert (Hlz : length z = N) by (apply solve_lower_length; assumption).
  assert (H1 : matmul 1 L z = t)
    by (apply solve_lower_correct; [exact HcL | exact Hlt | apply column_rows]).
  assert (H2 : matmul 1 (transpose N L) a = z)
    by (apply solve_upper_correct; [exact HcL | exact Hlz | exact Hz]).
  exists L, (col 0 a). split; [exact HL | split; [reflexivity | split; [|split]]].
  - rewrite col_length. apply solve_upper_length; [split; assumption | exact Hlz].
  - rewrite <- HLLt. rewrite mat_vec_matmul by exact HrU.
    rewrite (matmul_single_column _ a Ha) in H2.
    rewrite (matmul_single_column L z Hz) in H1.
    assert (E2 : mat_vec (transpose N L) (col 0 a) = col 0 z).
    { rewrite <- (col0_column (mat_vec (transpose N L) (col 0 a))), H2. reflexivity. }
    rewrite E2.
    rewrite <- (col0_column (mat_vec L (col 0 z))), H1. unfold t. apply col0_column.
  - pose proof (gp_inference_run obs_x obs_t x_new l v noise m0 K_y L Ht HK Hsq HL)
      as Hrun. cbv zeta in Hrun. fold N t z a in Hrun. rewrite Hrun.
    unfold outcome. simpl snd. eexists; eexists; eexists. split; [reflexivity|].
    intros j Hj. apply posterior_mean_entry; [apply rbf_kernel_rows | exact Ha | exact Hj].
Qed.

Lemma alpha_solves_normal_system_witness :
  exists (L : matrix) (alpha : list R),
    potrf 1 1 [[rbf_of_dist 2 1 (dist 5 5) + 1 * 1]] = inr L
    /\ mat_vec [[rbf_of_dist 2 1 (dist 5 5) + 1 * 1]] alpha
       = map (fun y => y - 3) [1].
Proof.
  destruct (alpha_solves_normal_system [5] [1] [5; 1000] 2 1 (NoiseScalar 1) 3
              [[rbf_of_dist 2 1 (dist 5 5) + 1 * 1]]
              eq_refl (noisy_cov_single 5 2 1 1)
              (spd_single _ (single_cov_pos 5 2 1 1 Rlt_0_1 Rle_0_1)))
    as (L & alpha & HL & _ & _ & Hsys & _).
  exists L, alpha. split; [exact HL | exact Hsys].
Defined.

(** The entries of the matrix [gp_inference] returns as covariance. *)
Lemma posterior_cov_entry (N M : nat) (L Ks K_pred : matrix) (i j : nat) :
  chol_factor N L -> length Ks = N -> Forall (fun r => length r = M) Ks ->
  square M K_pred -> (i < M)%nat -> (j < M)%nat ->
  let w := solve_lower N L Ks in
  let vv := solve_upper N (transpose N L) w in
  entry (mat_sub K_pred (matmul M (transpose M Ks) vv)) i j
  = entry K_pred i j - dot (col i w) (col j w).
Proof.
  intros HcL HKsl HKsr HKp Hi Hj w vv.
  pose proof (chol_factor_square N L HcL) as HsqL.
  assert (Hwr : Forall (fun r => length r = M) w) by (apply solve_lower_rows; exact HKsr).
  assert (Hwl : length w = N) by (apply solve_lower_length; assumption).
  assert (Hvr : Forall (fun r => length r = M) vv) by (apply solve_upper_rows; exact Hwr).
  assert (H1 : matmul M L w = Ks) by (apply solve_lower_correct; assumption).
  assert (H2 : matmul M (transpose N L) vv = w)
    by (apply solve_upper_correct; assumption).
  assert (HlT : length (transpose M Ks) = M) by (apply transpose_length; exact HKsr).
  assert (HP : square M (matmul M (transpose M Ks) vv))
    by (apply matmul_square; assumption).
  rewrite (entry_mat_sub M) by assumption. f_equal.
  rewrite entry_matmul by (rewrite ?HlT; assumption).
  rewrite transpose_row by assumption.
  rewrite <- H1 at 1. rewrite col_matmul by assumption.
  rewrite (dot_adjoint N L) by (destruct HsqL; assumption).
  rewrite <- (col_matmul M (transpose N L) vv j) by assumption.
  rewrite H2. reflexivity.
Qed.

(** X14.  When [K_y] is symmetric positive-definite, the returned posterior
    covariance is the M x M matrix [K** - K*^T v], where [v] comes from the
    two triangular solves [L w = K*] and [L^T v = w]; entry by entry this is
    [cov[i,j] = K**[i,j] - K*[:,i] . v[:,j]], which in turn is
    [K**[i,j] - w[:,i] . w[:,j]]. *)
Theorem posterior_covariance_entries (obs_x obs_t x_new : list R) (l v : R)
  (noise : noise_spec) (m0 : R) (K_y : matrix) :
  length obs_t = length obs_x ->
  noisy_cov obs_x l v noise = inr K_y ->
  SPD K_y ->
  let N := length obs_x in
  let M := length x_new in
  let K_pred := rbf_kernel x_new x_new l v in
  let K_obs_pred := rbf_kernel obs_x x_new l v in
  exists (L : matrix) (mean : list R) (cov : matrix) (log_lik : R),
    potrf N 1 K_y = inr L
    /\ outcome (gp_inference obs_x obs_t x_new (l, v, noise) m0)
       = inr (mean, cov, log_lik)
    /\ length mean = M
    /\ square M cov
    /\ let w := solve_lower N L K_obs_pred in
       let vv := solve_upper N (transpose N L) w in
       matmul M L w = K_obs_pred
       /\ matmul M (transpose N L) vv = w
       /\ cov = mat_sub K_pred (matmul M (transpose M K_obs_pred) vv)
       /\ forall i j : nat, (i < M)%nat -> (j < M)%nat ->
            entry cov i j = entry K_pred i j - dot (col i K_obs_pred) (col j vv)
            /\ entry cov i j = entry K_pred i j - dot (col i w) (col j w).
Proof.
  intros Ht HK HSPD N M K_pred K_obs_pred.
  destruct (spd_factor obs_x l v noise K_y HK HSPD) as (Hsq & L & HL & HcL & HLLt).
  fold N in Hsq, HL, HcL, HLLt.
  pose proof (chol_factor_square N L HcL) as HsqL.
  pose proof (transpose_square N L HsqL) as [HlU HrU].
  pose proof (gp_inference_run obs_x obs_t x_new l v noise m0 K_y L Ht HK Hsq HL)
    as Hrun. cbv zeta in Hrun. fold N M K_pred K_obs_pred in Hrun.
  set (w := solve_lower N L K_obs_pred) in *.
  set (vv := solve_upper N (transpose N L) w) in *.
  assert (HKsr : Forall (fun r => length r = M) K_obs_pred) by apply rbf_kernel_rows.
  assert (HKsl : length K_obs_pred = N) by apply rbf_kernel_length.
  assert (Hwr : Forall (fun r => length r = M) w) by (apply solve_lower_rows; exact HKsr).
  assert (Hwl : length w = N) by (apply solve_lower_length; assumption).
  assert (Hvr : Forall (fun r => length r = M) vv) by (apply solve_upper_rows; exact Hwr).
  assert (H1 : matmul M L w = K_obs_pred) by (apply solve_lower_correct; assumption).
  assert (H2 : matmul M (transpose N L) vv = w)
    by (apply solve_upper_correct; assumption).
  assert (HlT : length (transpose M K_obs_pred) = M)
    by (apply transpose_length; exact HKsr).
  assert (HP : square M (matmul M (transpose M K_obs_pred) vv))
    by (apply matmul_square; assumption).
  assert (HKp : square M K_pred) by apply rbf_kernel_square.
  rewrite Hrun. unfold outcome. simpl snd.
  eexists L, _, _, _. split; [exact HL | split; [reflexivity | split; [|split]]].
  - unfold matmul. rewrite !length_map. exact HlT.
  - destruct HKp as [HKl HKr], HP as [HPl HPr]. unfold mat_sub. split.
    + rewrite zip_with_length, HKl, HPl. apply Nat.min_id.
    + apply zip_rows_length; assumption.
  - cbv zeta. split; [exact H1 | split; [exact H2 | split; [reflexivity|]]].
    intros i j Hi Hj. split.
    + rewrite (entry_mat_sub M) by assumption. f_equal.
      rewrite entry_matmul by (rewrite ?HlT; assumption).
      rewrite transpose_row by assumption. reflexivity.
    + apply posterior_cov_entry; assumption.
Qed.

Lemma posterior_covariance_entries_witness :
  exists (L : matrix) (mean : list R) (cov : matrix) (log_lik : R),
    potrf 1 1 [[rbf_of_dist 2 1 (dist 5 5) + 1 * 1]] = inr L
    /\ outcome (gp_inference [5] [1] [5; 1000] (2, 1, NoiseScalar 1) 0)
       = inr (mean, cov, log_lik)
    /\ square 2 cov
    /\ entry cov 0 1
       = entry (rbf_kernel [5; 1000] [5; 1000] 2 1) 0 1
         - dot (col 0 (rbf_kernel [5] [5; 1000] 2 1))
               (col 1 (solve_upper 1 (transpose 1 L)
                         (solve_lower 1 L (rbf_kernel [5] [5; 1000] 2 1)))).
Proof.
  destruct (posterior_covariance_entries [5] [1] [5; 1000] 2 1 (NoiseScalar 1) 0
              [[rbf_of_dist 2 1 (dist 5 5) + 1 * 1]]
              eq_refl (noisy_cov_single 5 2 1 1)
              (spd_single _ (single_cov_pos 5 2 1 1 Rlt_0_1 Rle_0_1)))
    as (L & mean & cov & ll & HL & Hout & _ & Hsq & _ & _ & _ & Hent).
  exists L, mean, cov, ll.
  split; [exact HL | split; [exact Hout | split; [exact Hsq|]]].
  exact (proj1 (Hent 0%nat 1%nat ltac:(simpl; lia) ltac:(simpl; lia))).
Defined.

(** ** One observation *)

Lemma mean_length (m0 : R) (X al : matrix) :
  length (map (fun r => hd 0 r + m0) (matmul 1 X al)) = length X.
Proof. unfold matmul. rewrite length_map. apply length_map. Qed.

Lemma potrf_single (a : R) : 0 < a -> potrf 1 1 [[a]] = inr [[sqrt a]].
Proof. intros Ha. simpl. destruct (Rlt_dec 0 a); [reflexivity | contradiction]. Qed.

Lemma rbf_kernel_single_row (x : R) (x_new : list R) (l v : R) :
  rbf_kernel [x] x_new l v = [map (fun b => rbf_of_dist l v (dist x b)) x_new].
Proof. rewrite rbf_kernel_closed. reflexivity. Qed.

(** X15.  With a single observation [(x, t)] and [a = k(x,x) + noise > 0],
    [gp_inference] returns the textbook values: the mean at a test input
    [u] is [m0 + k(x, u) * (t - m0) / a], the covariance of two test inputs
    [u], [u'] is [k(u, u') - k(x, u) * k(x, u') / a], and the log-likelihood value
    is [-1/2 * (log(sqrt a) + (t - m0)^2 / a) - 1/2 * log(2*pi)], with [k]
    the entry [rbf_kernel] computes. *)
Theorem single_observation_posterior (x t : R) (x_new : list R) (l v s m0 : R) :
  let a := rbf_of_dist l v (dist x x) + s * 1 in
  let k := fun b => rbf_of_dist l v (dist x b) in
  0 < a ->
  exists (mean : list R) (cov : matrix),
    outcome (gp_inference [x] [t] x_new (l, v, NoiseScalar s) m0)
    = inr (mean, cov,
           - (1 / 2) * (ln (sqrt a) + (t - m0) ^ 2 / a) - 1 / 2 * ln (2 * PI))
    /\ length mean = length x_new
    /\ (forall j : nat, (j < length x_new)%nat ->
          nth j mean 0 = m0 + k (nth j x_new 0) * (t - m0) / a)
    /\ (forall i j : nat, (i < length x_new)%nat -> (j < length x_new)%nat ->
          entry cov i j
          = entry (rbf_kernel x_new x_new l v) i j
            - k (nth i x_new 0) * k (nth j x_new 0) / a).
Proof.
  intros a k Ha.
  assert (Hsq : square 1 [[a]]) by (split; [reflexivity | repeat constructor]).
  pose proof (potrf_single a Ha) as HL.
  pose proof (gp_inference_run [x] [t] x_new l v (NoiseScalar s) m0 [[a]] [[sqrt a]]
                eq_refl (noisy_cov_single x l v s) Hsq HL) as Hrun.
  cbv zeta in Hrun. simpl length in Hrun.
  assert (Hd : 0 < sqrt a) by (apply sqrt_lt_R0; exact Ha).
  assert (Hdd : sqrt a * sqrt a = a) by (apply sqrt_sqrt; lra).
  set (d := sqrt a) in *.
  assert (Hz : solve_lower 1 [[d]] (column (map (fun y => y - m0) [t]))
               = [[(t - m0) / d]]) by reflexivity.
  assert (Hal : solve_upper 1 (transpose 1 [[d]]) [[(t - m0) / d]]
                = [[((t - m0) / d - 0) / d]]) by reflexivity.
  rewrite Hz, Hal in Hrun. rewrite rbf_kernel_single_row in Hrun.
  fold k in Hrun. rewrite Hrun. unfold outcome. cbn [snd].
  eexists; eexists. split; [|split; [|split]].
  - apply f_equal. apply f_equal2; [reflexivity|].
    unfold log_lik_expr, diag, entry. simpl.
    rewrite (Rabs_pos_eq d) by lra.
    replace ((t - m0) / d * ((t - m0) / d * 1)) with ((t - m0) * ((t - m0) * 1) / a)
      by (rewrite <- Hdd; field; lra).
    field. lra.
  - rewrite mean_length. apply transpose_length.
    repeat constructor. apply length_map.
  - intros j Hj.
    rewrite (posterior_mean_entry m0 [map k x_new] [[((t - m0) / d - 0) / d]]
               (length x_new) j)
      by (repeat constructor; try apply length_map; exact Hj).
    unfold col. simpl. rewrite (nth_map_in k x_new j 0 0) by exact Hj.
    unfold dot, Rsum. simpl. rewrite <- Hdd. field. lra.
  - intros i j Hi Hj.
    pose proof (posterior_cov_entry 1 (length x_new) [[d]] [map k x_new]
                  (rbf_kernel x_new x_new l v) i j) as Hc.
    cbv zeta in Hc. rewrite Hc.
    + f_equal. unfold col. simpl.
      rewrite !(nth_map_in (fun x0 => x0 / d) (map k x_new) _ 0 0)
        by (rewrite length_map; assumption).
      rewrite !(nth_map_in k x_new _ 0 0) by assumption.
      unfold dot, Rsum. simpl. rewrite <- Hdd. field. lra.
    + replace [[d]] with ([d :: repeat 0 0] ++ zip_with cons [] []) by reflexivity.
      simpl. apply (chol_factor_cons 0 d [] [] Hd eq_refl chol_factor_nil).
    + reflexivity.
    + repeat constructor. apply length_map.
    + apply rbf_kernel_square.
    + exact Hi.
    + exact Hj.
Qed.

Lemma single_observation_posterior_witness :
  exists (mean : list R) (cov : matrix),
    outcome (gp_inference [5] [1] [5; 1000] (2, 1, NoiseScalar 1) 0)
    = inr (mean, cov,
           - (1 / 2) * (ln (sqrt (rbf_of_dist 2 1 (dist 5 5) + 1 * 1))
                        + (1 - 0) ^ 2 / (rbf_of_dist 2 1 (dist 5 5) + 1 * 1))
           - 1 / 2 * ln (2 * PI))
    /\ nth 1 mean 0
       = 0 + rbf_of_dist 2 1 (dist 5 1000) * (1 - 0)
             / (rbf_of_dist 2 1 (dist 5 5) + 1 * 1).
Proof.
  destruct (single_observation_posterior 5 1 [5; 1000] 2 1 1 0
              (single_cov_pos 5 2 1 1 Rlt_0_1 Rle_0_1))
    as (mean & cov & Hout & _ & Hm & _).
  exists mean, cov. split; [exact Hout | exact (Hm 1%nat ltac:(simpl; lia))].
Defined.

(** ** The training loop, continued *)

(** X16.  The loop has no handler: when the likelihood evaluation of
    iteration [i] raises, after the iterations before it went through, a run
    with a larger step budget ends with that exception. *)
Theorem training_loop_propagates_exception (obs_x obs_t : list R)
  (backward : hyper -> hyper) (steps i : nat) (st : loop_state) (e : exn) :
  (i < steps)%nat ->
  (forall j : nat, (j < i)%nat ->
     exists value,
       nlog_lik_at obs_x obs_t
         (fst (optimizer_at backward j (ls_params st, ls_buffer st))) = inr value) ->
  nlog_lik_at obs_x obs_t
    (fst (optimizer_at backward i (ls_params st, ls_buffer st))) = inl e ->
  training_loop obs_x obs_t backward steps st = inl e.
Proof.
  revert steps st. induction i as [|i IH]; intros steps st Hlt Hok Hfail.
  - destruct steps as [|steps]; [lia|]. simpl in *.
    unfold training_step. rewrite Hfail. reflexivity.
  - destruct steps as [|steps]; [lia|].
    destruct (Hok 0%nat ltac:(lia)) as [v0 Hv0]. simpl in Hv0.
    destruct (training_step_ok obs_x obs_t backward st v0 Hv0)
      as (st1 & Hst1 & Hadv & _).
    simpl. rewrite Hst1. apply IH.
    + lia.
    + intros j Hj. rewrite Hadv. apply (Hok (S j)). lia.
    + rewrite Hadv. exact Hfail.
Qed.

Lemma nlog_lik_mismatch (x t t' : R) (p : hyper) :
  nlog_lik_at [x] [t; t'] p = inl (RuntimeError SizeMismatch).
Proof.
  unfold nlog_lik_at, constrained.
  pose proof (single_cov_pos x (exp (logl p)) (exp (logsigmaf p)) (exp (logsigman p))
                (exp_pos _) (Rlt_le _ _ (exp_pos _))) as Hpos.
  destruct (spd_factor [x] _ _ (NoiseScalar (exp (logsigman p))) _
              (noisy_cov_single x _ _ _) (spd_single _ Hpos)) as (Hsq & L & HL & _ & _).
  rewrite (gp_inference_targets_mismatch [x] [t; t'] scan_point _ _ _ 0 _ L
             (noisy_cov_single x _ _ _) Hsq HL ltac:(simpl; lia)).
  reflexivity.
Qed.

Lemma training_loop_propagates_exception_witness :
  training_loop [0] [1; 2] (fun _ => mk_hyper 0 0 0) 200 initial_state
  = inl (RuntimeError SizeMismatch).
Proof.
  refine (training_loop_propagates_exception [0] [1; 2] (fun _ => mk_hyper 0 0 0)
            200 0 initial_state (RuntimeError SizeMismatch) ltac:(lia) _ _).
  - intros j Hj. lia.
  - apply nlog_lik_mismatch.
Defined.

(** ** The Dirichlet transform on one-hot labels *)

Lemma transf_var_pos (alpha y : R) :
  0 < alpha -> 0 <= y -> 0 < ln (/ (y + alpha) + 1).
Proof.
  intros Ha Hy. rewrite <- ln_1. apply ln_increasing; [lra|].
  assert (0 < / (y + alpha)) by (apply Rinv_0_lt_compat; lra). lra.
Qed.

Lemma transf_var_label_order (alpha : R) :
  0 < alpha -> ln (/ (1 + alpha) + 1) < ln (/ (0 + alpha) + 1).
Proof.
  intros Ha. apply ln_increasing.
  - assert (0 < / (1 + alpha)) by (apply Rinv_0_lt_compat; lra). lra.
  - apply Rplus_lt_compat_r. apply Rinv_lt_contravar; [nra | lra].
Qed.

(** X18.  For one-hot labels and [alpha > 0] the transformed variance is
    positive, so it is a valid noise; a label 1 gets a smaller variance and
    a larger transformed mean than a label 0. *)
Theorem dirichlet_labels_ordered (alpha : R) (Y : matrix) (i c i' c' : nat) :
  0 < alpha ->
  (i < length Y)%nat -> (c < length (nth i Y []))%nat ->
  (i' < length Y)%nat -> (c' < length (nth i' Y []))%nat ->
  entry Y i c = 1 -> entry Y i' c' = 0 ->
  0 < entry (transf_var alpha Y) i c
  /\ entry (transf_var alpha Y) i c < entry (transf_var alpha Y) i' c'
  /\ entry (transf_mean alpha Y) i' c' < entry (transf_mean alpha Y) i c.
Proof.
  intros Ha Hi Hc Hi' Hc' H1 H0.
  rewrite !transf_mean_entry by assumption.
  rewrite !transf_var_entry by assumption. rewrite H1, H0.
  pose proof (transf_var_pos alpha 1 Ha ltac:(lra)) as Hp.
  pose proof (transf_var_label_order alpha Ha) as Ho.
  assert (Hl : ln (0 + alpha) < ln (1 + alpha)) by (apply ln_increasing; lra).
  split; [exact Hp | split; [exact Ho | lra]].
Qed.

Lemma dirichlet_labels_ordered_witness :
  0 < entry (transf_var alpha_default [[1; 0]; [0; 1]]) 0 0
  /\ entry (transf_var alpha_default [[1; 0]; [0; 1]]) 0 0
     < entry (transf_var alpha_default [[1; 0]; [0; 1]]) 0 1
  /\ entry (transf_mean alpha_default [[1; 0]; [0; 1]]) 0 1
     < entry (transf_mean alpha_default [[1; 0]; [0; 1]]) 0 0.
Proof.
  exact (dirichlet_labels_ordered alpha_default [[1; 0]; [0; 1]] 0 0 0 1
           ltac:(unfold alpha_default; lra)
           ltac:(simpl; lia) ltac:(simpl; lia) ltac:(simpl; lia) ltac:(simpl; lia)
           eq_refl eq_refl).
Defined.
